(** * fellowship-pair-bot: the pairing and rostering engine of [pairbot.py]

    A shallow embedding of [ChurchPairingBot] (src/pairbot.py): the group
    table [self.data], the command handlers [pairme], [leave] and [mypair],
    the pairing function [generate_pairs] and the scheduled job
    [send_weekly_pairings], followed by the properties of the specification
    that are settled against them.

    Python dictionaries are finite maps ([gmap]) with string keys, lists are
    lists, [None]-able fields are options.  Everything the program takes from
    its environment is an explicit argument: the wall clock
    ([datetime.now]), the random generator behind [random.shuffle], and the
    outcome of [bot.send_message]. *)

From stdpp Require Import gmap strings list fin_maps pretty.

Open Scope string_scope.
Open Scope list_scope.
Open Scope nat_scope.

(** ** Data model: the JSON-shaped group table *)

(** [self.data[chat_id]["users"][user_id]], written by [pairme]. *)
Record User := mkUser {
  username : string;
  joined_at : string;
  last_partner : option string;
  last_pairing_date : option string
}.

(** One element of [pairing_record["pairs"]]; [user2_id] and [user2_name]
    are [None] for the odd person out. *)
Record Pair := mkPair {
  user1_id : string;
  user1_name : string;
  user2_id : option string;
  user2_name : option string
}.

Record PairingRecord := mkRecord {
  date : string;
  pairs : list Pair
}.

(** [self.data[chat_id]].  The code reads ["chat_title"] with [.get] and
    tests ["pairing_history" in group_data], so both keys may be missing
    in a table loaded from the data file; they are options here. *)
Record Group := mkGroup {
  chat_title : option string;
  users : gmap string User;
  created_at : string;
  pairing_history : option (list PairingRecord)
}.

#[global] Instance User_eq_dec : EqDecision User.
Proof. solve_decision. Defined.
#[global] Instance Pair_eq_dec : EqDecision Pair.
Proof. solve_decision. Defined.
#[global] Instance PairingRecord_eq_dec : EqDecision PairingRecord.
Proof. solve_decision. Defined.

Definition set_chat_title (t : string) (g : Group) : Group :=
  mkGroup (Some t) (users g) (created_at g) (pairing_history g).
Definition set_users (us : gmap string User) (g : Group) : Group :=
  mkGroup (chat_title g) us (created_at g) (pairing_history g).
Definition set_pairing_history (h : list PairingRecord) (g : Group) : Group :=
  mkGroup (chat_title g) (users g) (created_at g) (Some h).

(** The history list of a group, [[]] when the key is missing. *)
Definition history (g : Group) : list PairingRecord :=
  default [] (pairing_history g).

(** ** Python truthiness of strings and [a or b] *)

Definition truthy (o : option string) : bool :=
  match o with
  | Some s => bool_decide (s ≠ "")
  | None => false
  end.

Definition py_or (a : option string) (b : option string) : option string :=
  if truthy a then a else b.

(** ** [random.shuffle]

    The library routine the bot calls: for [i] from [len(x) - 1] down to [1],
    draw [j = randbelow(i + 1)] and exchange [x[i]] and [x[j]].  The
    generator is a finite tape of draws; each draw is reduced below its
    bound, an exhausted tape yields [0]. *)

Abbreviation Rng := (list nat).

Definition randbelow (n : nat) (rng : Rng) : nat * Rng :=
  match rng with
  | [] => (0, [])
  | r :: rng' => (r mod n, rng')
  end.

(** [x[i], x[j] = x[j], x[i]]: both reads happen first, then [x[i]] and
    [x[j]] are written in that order. *)
Definition exchange {A} (i j : nat) (x : list A) : list A :=
  match x !! i, x !! j with
  | Some xi, Some xj => <[j := xi]> (<[i := xj]> x)
  | _, _ => x
  end.

Fixpoint shuffle_from {A} (i : nat) (x : list A) (rng : Rng) : list A * Rng :=
  match i with
  | 0 => (x, rng)
  | S i' =>
      let '(j, rng') := randbelow (i + 1) rng in
      shuffle_from i' (exchange i j x) rng'
  end.

Definition shuffle {A} (x : list A) (rng : Rng) : list A * Rng :=
  shuffle_from (length x - 1) x rng.

(** ** [generate_pairs] *)

Abbreviation Item := (string * User)%type.

(** [range(0, n, 2)] *)
Definition range_step2 (n : nat) : list nat :=
  (λ k, 2 * k) <$> seq 0 (Nat.div2 (S n)).

(** The body of the loop at index [i]: a perfect pair when [i + 1] is still
    inside the list, the odd person out otherwise. *)
Definition pair_at (user_items : list Item) (i : nat)
    : option (Item * option Item) :=
  if decide (i + 1 < length user_items) then
    a ← user_items !! i; b ← user_items !! (i + 1); Some (a, Some b)
  else
    a ← user_items !! i; Some (a, None).

Definition pairs_of_items (user_items : list Item)
    : list (Item * option Item) :=
  omap (pair_at user_items) (range_step2 (length user_items)).

Definition generate_pairs (users_dict : gmap string User) (rng : Rng)
    : list (Item * option Item) * Rng :=
  let '(user_items, rng') := shuffle (map_to_list users_dict) rng in
  (pairs_of_items user_items, rng').

(** The same partition by structural recursion, two items at a time; shown
    equal to the indexed loop in [pairs_of_items_chunk]. *)
Fixpoint chunk2 {A} (l : list A) : list (A * option A) :=
  match l with
  | [] => []
  | [a] => [(a, None)]
  | a :: b :: l' => (a, Some b) :: chunk2 l'
  end.

(** Identifiers carried by one outcome, and by a sequence of outcomes. *)
Definition outcome_ids (p : Item * option Item) : list string :=
  match p with
  | (a, Some b) => [a.1; b.1]
  | (a, None) => [a.1]
  end.

Definition is_matched {A} (p : A * option A) : bool :=
  match p.2 with Some _ => true | None => false end.

Definition is_singleton {A} (p : A * option A) : bool :=
  negb (is_matched p).

Definition count_matched {A} (ps : list (A * option A)) : nat :=
  length (filter (λ p, is_matched p = true) ps).

Definition count_singletons {A} (ps : list (A * option A)) : nat :=
  length (filter (λ p, is_singleton p = true) ps).

(** ** Inbound updates and replies *)

(** [update.effective_chat.type] *)
Inductive ChatType := Private | GroupChat | Supergroup | Channel.

#[global] Instance ChatType_eq_dec : EqDecision ChatType.
Proof. solve_decision. Defined.

(** The fields of a Telegram [Update] the handlers read. *)
Record Update := mkUpdate {
  effective_chat_id : Z;
  effective_chat_type : ChatType;
  effective_chat_title : option string;
  effective_user_id : Z;
  effective_user_username : option string;
  effective_user_first_name : option string
}.

(** What a handler answers; the wording of the texts is left out. *)
Inductive Reply :=
  | PrivateChatRejected
  | AlreadyRegistered (name : string)
  | Added (name : string) (participant_count : nat)
  | NotRegistered (name : string)
  | Removed (name : string)
  | NoPairingData
  | PairingStatus (name : string) (registered : option nat)
      (last : option (string * string)).

(** [str(update.effective_chat.id)] and [str(update.effective_user.id)] *)
Definition chat_key (u : Update) : string := pretty (effective_chat_id u).
Definition user_key (u : Update) : string := pretty (effective_user_id u).

(** [username or first_name or "Unknown"] *)
Definition display_name (u : Update) : string :=
  default "Unknown"
    (py_or (effective_user_username u)
       (py_or (effective_user_first_name u) (Some "Unknown"))).

(** [update.effective_chat.title or "Private Chat"] *)
Definition title_of (u : Update) : string :=
  default "Private Chat" (py_or (effective_chat_title u) (Some "Private Chat")).

(** ** [pairme]

    [t_created] and [t_joined] are the two readings of the clock the
    handler may take.  The write to the data file ([save_data]) has no
    effect on the table and is not modelled. *)
Definition pairme (u : Update) (t_created t_joined : string)
    (data : gmap string Group) : gmap string Group * Reply :=
  let chat_id := chat_key u in
  let user_id := user_key u in
  if decide (effective_chat_type u = Private) then (data, PrivateChatRejected)
  else
    (* initialise the group when it does not exist *)
    let g0 := match data !! chat_id with
              | Some g => g
              | None => mkGroup (Some (title_of u)) ∅ t_created (Some [])
              end in
    (* update the chat title in case it changed *)
    let g1 := set_chat_title (title_of u) g0 in
    match users g1 !! user_id with
    | Some _ => (<[chat_id := g1]> data, AlreadyRegistered (display_name u))
    | None =>
        let g2 := set_users
                    (<[user_id := mkUser (display_name u) t_joined None None]>
                       (users g1)) g1 in
        (<[chat_id := g2]> data, Added (display_name u) (size (users g2)))
    end.

(** ** [leave] *)
Definition leave (u : Update) (data : gmap string Group)
    : gmap string Group * Reply :=
  let chat_id := chat_key u in
  let user_id := user_key u in
  if decide (effective_chat_type u = Private) then (data, PrivateChatRejected)
  else
    match data !! chat_id with
    | None => (data, NotRegistered (display_name u))
    | Some g =>
        match users g !! user_id with
        | None => (data, NotRegistered (display_name u))
        | Some _ =>
            (<[chat_id := set_users (delete user_id (users g)) g]> data,
             Removed (display_name u))
        end
    end.

(** ** [mypair] *)

(** [user_id in [pair["user1_id"], pair["user2_id"]]] *)
Definition mentions (user_id : string) (p : Pair) : bool :=
  bool_decide (user1_id p = user_id) || bool_decide (user2_id p = Some user_id).

(** The value assigned to [last_partner] at a pair that mentions the user. *)
Definition partner_of (user_id : string) (p : Pair) : option string :=
  if decide (user1_id p = user_id) then user2_name p else Some (user1_name p).

(** The inner loop over [pairing_record["pairs"]]: [Some] of the assigned
    partner at the first pair that mentions the user (where the loop breaks),
    [None] when the loop runs to its end without an assignment. *)
Fixpoint scan_pairs (user_id : string) (ps : list Pair)
    : option (option string) :=
  match ps with
  | [] => None
  | p :: ps' =>
      if mentions user_id p then Some (partner_of user_id p)
      else scan_pairs user_id ps'
  end.

(** The outer loop, over the records in the order given, on the state
    [(last_partner, last_date)]; it breaks on [if last_partner]. *)
Fixpoint scan_history (user_id : string) (recs : list PairingRecord)
    (st : option string * option string) : option string * option string :=
  match recs with
  | [] => st
  | r :: recs' =>
      let st' := match scan_pairs user_id (pairs r) with
                 | Some partner => (partner, Some (date r))
                 | None => st
                 end in
      if truthy st'.1 then st' else scan_history user_id recs' st'
  end.

(** [(last_partner, last_date)] after the search in [mypair]. *)
Definition last_pairing (user_id : string) (g : Group)
    : option string * option string :=
  match pairing_history g with
  | Some h => scan_history user_id (reverse h) (None, None)
  | None => (None, None)
  end.

(** What the status message shows: [if last_partner and last_date].  The
    date is kept as stored; its rendering with [strftime] is left out. *)
Definition shown_pairing (st : option string * option string)
    : option (string * string) :=
  match st with
  | (Some p, Some d) =>
      if truthy (Some p) && truthy (Some d) then Some (p, d) else None
  | _ => None
  end.

Definition mypair (u : Update) (data : gmap string Group) : Reply :=
  let chat_id := chat_key u in
  let user_id := user_key u in
  if decide (effective_chat_type u = Private) then PrivateChatRejected
  else
    match data !! chat_id with
    | None => NoPairingData
    | Some g =>
        let registered := match users g !! user_id with
                          | Some _ => Some (size (users g))
                          | None => None
                          end in
        PairingStatus (display_name u) registered
          (shown_pairing (last_pairing user_id g))
    end.

(** The lookup as the specification words it: the first record, most recent
    first, that contains the participant decides the answer, partner name or
    none, together with the record's timestamp. *)
Definition record_mentions (user_id : string) (r : PairingRecord) : bool :=
  existsb (mentions user_id) (pairs r).

Fixpoint first_mentioning (user_id : string) (recs : list PairingRecord)
    : option PairingRecord :=
  match recs with
  | [] => None
  | r :: recs' =>
      if record_mentions user_id r then Some r
      else first_mentioning user_id recs'
  end.

Definition lastPartnerOf_spec (user_id : string) (h : list PairingRecord)
    : option (option string * string) :=
  match first_mentioning user_id (reverse h) with
  | Some r => Some (mjoin (scan_pairs user_id (pairs r)), date r)
  | None => None
  end.

(** ** [send_weekly_pairings] *)

(** Outbound texts, by content. *)
Inductive Line :=
  | LinePair (i : nat) (name1 name2 : string)
  | LineOdd (i : nat) (name1 : string).

Inductive Message :=
  | NeedMoreParticipants
  | WeeklyPairings (title : string) (lines : list Line).

(** The environment of one run of the job: the clock reading taken while
    the group [chat_id] is processed, and whether
    [send_message(chat_id=int(chat_id), text=...)] returns ([true]) or
    raises ([false]). *)
Record Env := mkEnv {
  now : string → string;
  send_message : string → Message → bool
}.

(** A send the job attempted, and whether it was delivered. *)
Abbreviation Sent := (string * Message * bool)%type.

(** The dictionary stored in [pairing_record["pairs"]] for one outcome. *)
Definition pair_entry (p : Item * option Item) : Pair :=
  match p with
  | (a, Some b) => mkPair a.1 (username a.2) (Some b.1) (Some (username b.2))
  | (a, None) => mkPair a.1 (username a.2) None None
  end.

Definition message_line (i : nat) (p : Item * option Item) : Line :=
  match p with
  | (a, Some b) => LinePair i (username a.2) (username b.2)
  | (a, None) => LineOdd i (username a.2)
  end.

(** [history.append(record)], then keep [history[-10:]] when longer than 10. *)
Definition append_record (h : list PairingRecord) (r : PairingRecord)
    : list PairingRecord :=
  let h' := h ++ [r] in
  if decide (10 < length h') then drop (length h' - 10) h' else h'.

(** The record and the announcement built from the outcomes of a round. *)
Definition round_record (current_date : string)
    (prs : list (Item * option Item)) : PairingRecord :=
  mkRecord current_date (pair_entry <$> prs).

Definition announcement (title : string) (prs : list (Item * option Item))
    : Message :=
  WeeklyPairings title (imap (λ i, message_line (S i)) prs).

(** The body of the loop for one group, with its [try]/[except]: an
    exception raised by the send leaves the group as mutated so far. *)
Definition pair_group (env : Env) (chat_id : string) (group_data : Group)
    (rng : Rng) : Group * Rng * list Sent :=
  let title := default "Unknown Group" (chat_title group_data) in
  if decide (users group_data = ∅) then (group_data, rng, [])
  else if decide (size (users group_data) < 2) then
    (group_data, rng,
     [(chat_id, NeedMoreParticipants,
       send_message env chat_id NeedMoreParticipants)])
  else
    let '(prs, rng') := generate_pairs (users group_data) rng in
    let record := round_record (now env chat_id) prs in
    let g1 := set_pairing_history
                (append_record (history group_data) record) group_data in
    let message := announcement title prs in
    if send_message env chat_id message
    then (set_users ∅ g1, rng', [(chat_id, message, true)])
    else (g1, rng', [(chat_id, message, false)]).

Abbreviation JobState :=
  (gmap string Group * list nat * list (string * Message * bool))%type.

Definition job_step (env : Env) (st : JobState) (kv : string * Group)
    : JobState :=
  let '(data, rng, out) := st in
  let '(g', rng', sent) := pair_group env kv.1 kv.2 rng in
  (<[kv.1 := g']> data, rng', out ++ sent).

(** The job: nothing to do on an empty table, otherwise one pass over
    [self.data.items()].  The final [save_data] does not change the table. *)
Definition send_weekly_pairings (env : Env) (data : gmap string Group)
    (rng : Rng) : JobState :=
  if decide (data = ∅) then (data, rng, [])
  else foldl (job_step env) (data, rng, []) (map_to_list data).

(** ** Runs of the bot *)

Inductive Op :=
  | OpPairme (u : Update) (t_created t_joined : string)
  | OpLeave (u : Update)
  | OpMypair (u : Update)
  | OpWeekly (env : Env) (rng : Rng).

Definition apply_op (data : gmap string Group) (op : Op) : gmap string Group :=
  match op with
  | OpPairme u t1 t2 => (pairme u t1 t2 data).1
  | OpLeave u => (leave u data).1
  | OpMypair _ => data
  | OpWeekly env rng => (send_weekly_pairings env data rng).1.1
  end.

Definition run (ops : list Op) (data : gmap string Group) : gmap string Group :=
  foldl apply_op data ops.

(** Identifiers recorded in a pairing record. *)
Definition pair_ids (p : Pair) : list string :=
  user1_id p :: match user2_id p with Some i => [i] | None => [] end.

Definition record_ids (r : PairingRecord) : list string :=
  pairs r ≫= pair_ids.

(** The retention bound holds in every group of the table. *)
Definition bounded (data : gmap string Group) : Prop :=
  ∀ chat_id g, data !! chat_id = Some g → length (history g) ≤ 10.

(** A stored pair that was built from the roster [us]: the first member is a
    participant under its display name; the second is either another
    participant under its display name, or absent in both fields. *)
Definition pair_from_roster (us : gmap string User) (p : Pair) : Prop :=
  (∃ u1, us !! user1_id p = Some u1 ∧ user1_name p = username u1)
  ∧ ((user2_id p = None ∧ user2_name p = None)
     ∨ (∃ id2 u2, user2_id p = Some id2 ∧ us !! id2 = Some u2
                  ∧ user2_name p = Some (username u2))).

(** A record at which the search of [mypair] stops for [user_id]: its first
    pair mentioning the user assigns a non-empty partner name. *)
Definition names_partner (user_id : string) (r : PairingRecord) : bool :=
  truthy (mjoin (scan_pairs user_id (pairs r))).

(** [h'] is what a history [h] can become: itself, or the last ten of [h]
    followed by the records appended since. *)
Definition survives (h h' : list PairingRecord) : Prop :=
  h' = h ∨ ∃ new, h' = drop (length (h ++ new) - 10) (h ++ new).

(** The first record, in the order given, that names a partner. *)
Fixpoint first_naming (user_id : string) (recs : list PairingRecord)
    : option PairingRecord :=
  match recs with
  | [] => None
  | r :: recs' =>
      if names_partner user_id r then Some r else first_naming user_id recs'
  end.

(** ** Sample tables *)

Definition alice : User := mkUser "alice" "2024-03-04T09:00:00+00:00" None None.
Definition bob : User := mkUser "bob" "2024-03-05T09:00:00+00:00" None None.
Definition carol : User := mkUser "carol" "2024-03-06T09:00:00+00:00" None None.

Definition trio : gmap string User :=
  <["11" := alice]> (<["12" := bob]> (<["13" := carol]> ∅)).

Definition fellowship : Group :=
  mkGroup (Some "Fellowship") trio "2024-03-01T08:00:00+00:00" (Some []).

Definition one_group : gmap string Group := <["-100" := fellowship]> ∅.

Definition sunday : string := "2024-03-10T16:00:00+00:00".

(** A transport that delivers everything, and one that always raises. *)
Definition delivering : Env := mkEnv (λ _, sunday) (λ _ _, true).
Definition failing : Env := mkEnv (λ _, sunday) (λ _ _, false).

(** Two rounds: alice paired with bob first, then left over as the odd
    person out while carol and dan are paired. *)
Definition round1 : PairingRecord :=
  mkRecord "2024-03-03T16:00:00+00:00"
    [mkPair "11" "alice" (Some "12") (Some "bob")].
Definition round2 : PairingRecord :=
  mkRecord "2024-03-10T16:00:00+00:00"
    [mkPair "13" "carol" (Some "14") (Some "dan");
     mkPair "11" "alice" None None].

Definition two_rounds : Group :=
  mkGroup (Some "Fellowship") ∅ "2024-03-01T08:00:00+00:00"
    (Some [round1; round2]).

Definition alice_asks : Update :=
  mkUpdate (-100) GroupChat (Some "Fellowship") 11 (Some "alice") (Some "Alice").

Definition bob_joins : Update :=
  mkUpdate (-100) Supergroup (Some "Fellowship") 12 None (Some "Bob").

Definition alice_again : Update :=
  mkUpdate (-100) GroupChat (Some "Evening Fellowship") 11 (Some "alice")
    (Some "Alice").

(** A group in which alice alone is registered. *)
Definition waiting : Group :=
  mkGroup (Some "Fellowship") (<["11" := alice]> ∅)
    "2024-03-01T08:00:00+00:00" (Some [round1]).

Definition one_waiting : gmap string Group := <["-100" := waiting]> ∅.

(** A history that holds ten records. *)
Definition ten_rounds : list PairingRecord :=
  (λ i, mkRecord (pretty i) []) <$> seq 1 10.

Definition a_week : list Op :=
  [OpPairme alice_asks "t0" "t1"; OpPairme bob_joins "t2" "t3";
   OpWeekly delivering [1]; OpLeave bob_joins].

Definition carol_joins : Update :=
  mkUpdate (-100) Supergroup (Some "Fellowship") 13 (Some "carol") None.

Definition dan_joins : Update :=
  mkUpdate (-100) Supergroup (Some "Fellowship") 14 (Some "dan") None.

(** Three registrations, a run of the job, a fourth registration and a
    second run of the job. *)
Definition two_weeks : list Op :=
  [OpPairme alice_asks "t0" "t1"; OpPairme bob_joins "t2" "t3";
   OpPairme carol_joins "t4" "t5"; OpWeekly delivering [2; 1];
   OpPairme dan_joins "t6" "t7"; OpWeekly delivering []].

(** ** Notions for the properties of the handlers and of the job *)

(** The roster stored for a chat, empty when the chat has no group. *)
Definition roster (data : gmap string Group) (chat_id : string)
    : gmap string User :=
  from_option users ∅ (data !! chat_id).

(** Every stored participant has a non-empty display name. *)
Definition named (data : gmap string Group) : Prop :=
  ∀ chat_id g user_id usr,
    data !! chat_id = Some g → users g !! user_id = Some usr →
    username usr ≠ "".

(** A stored round in which no participant occurs twice and whose pairs have
    their second id and second name both present or both absent. *)
Definition round_sound (r : PairingRecord) : Prop :=
  NoDup (record_ids r)
  ∧ Forall (λ p, is_Some (user2_id p) ↔ is_Some (user2_name p)) (pairs r).

Definition rounds_sound (data : gmap string Group) : Prop :=
  ∀ chat_id g, data !! chat_id = Some g → Forall round_sound (history g).

(** The number and the names of one line of an announcement. *)
Definition line_index (l : Line) : nat :=
  match l with LinePair i _ _ => i | LineOdd i _ => i end.

Definition line_names (l : Line) : list string :=
  match l with LinePair _ n1 n2 => [n1; n2] | LineOdd _ n1 => [n1] end.

(** The chat ids the job tried to write to, in the order of the sends. *)
Definition addressed (out : list (string * Message * bool)) : list string :=
  (λ s, s.1.1) <$> out.

(** The two partner fields of every stored participant are empty. *)
Definition legacy_blank (data : gmap string Group) : Prop :=
  ∀ chat_id g user_id usr,
    data !! chat_id = Some g → users g !! user_id = Some usr →
    last_partner usr = None ∧ last_pairing_date usr = None.

Definition alice_in_private : Update :=
  mkUpdate 11 Private None 11 (Some "alice") (Some "Alice").

Definition erin_asks : Update :=
  mkUpdate (-100) GroupChat (Some "Fellowship") 15 None None.

(** A table with the full fellowship group and a group nobody is left in. *)
Definition deserted : Group :=
  mkGroup (Some "Youth") ∅ "2024-02-01T08:00:00+00:00" (Some [round1]).

Definition two_groups : gmap string Group :=
  <["-100" := fellowship]> (<["-200" := deserted]> ∅).

(** * Properties *)

(** ** The shuffle permutes *)

Section shuffle.
Context {A : Type}.
Implicit Types x : list A.

Lemma exchange_perm i j x : exchange i j x ≡ₚ x.
Proof.
  unfold exchange.
  destruct (x !! i) as [xi|] eqn:Hi; [|done].
  destruct (x !! j) as [xj|] eqn:Hj; [|done].
  by apply Permutation_insert_swap.
Qed.

Lemma shuffle_from_perm i x rng : (shuffle_from i x rng).1 ≡ₚ x.
Proof.
  revert x rng. induction i as [|i IH]; intros x rng; [done|].
  cbn [shuffle_from]. destruct (randbelow _ rng) as [j rng'].
  rewrite IH. apply exchange_perm.
Qed.

Lemma shuffle_perm x rng : (shuffle x rng).1 ≡ₚ x.
Proof. apply shuffle_from_perm. Qed.
End shuffle.

(** ** The indexed loop of [generate_pairs] is the partition in twos *)

Lemma list_ind2 {A} (P : list A → Prop) :
  P [] → (∀ a, P [a]) → (∀ a b l, P l → P (a :: b :: l)) → ∀ l, P l.
Proof.
  intros H0 H1 H2.
  assert (∀ l, P l ∧ ∀ a, P (a :: l)) as H; [|intros l; apply H].
  induction l as [|b l [IHl IHa]]; split; auto.
Qed.

Lemma range_step2_SS n :
  range_step2 (S (S n)) = 0 :: ((λ i, S (S i)) <$> range_step2 n).
Proof.
  unfold range_step2. change (Nat.div2 (S (S (S n)))) with (S (Nat.div2 (S n))).
  cbn [seq fmap list_fmap]. f_equal.
  rewrite <- fmap_S_seq, <- !list_fmap_compose.
  apply list_fmap_ext. intros _ k _. simpl. lia.
Qed.

Lemma pair_at_SS (a b : Item) l i :
  pair_at (a :: b :: l) (S (S i)) = pair_at l i.
Proof.
  unfold pair_at. cbn [length].
  destruct (decide (S (S i) + 1 < S (S (length l))));
    destruct (decide (i + 1 < length l)); try lia; done.
Qed.

Lemma omap_fmap_compose {A B C} (f : B → option C) (g : A → B) (l : list A) :
  omap f (g <$> l) = omap (f ∘ g) l.
Proof.
  induction l as [|a l IH]; [done|].
  cbn [fmap list_fmap omap list_omap]. simpl. by rewrite <- IH.
Qed.

Lemma pairs_of_items_chunk l : pairs_of_items l = chunk2 l.
Proof.
  unfold pairs_of_items.
  induction l as [|a|a b l IH] using list_ind2; [done..|].
  cbn [length chunk2]. rewrite range_step2_SS. cbn [omap list_omap].
  unfold pair_at at 1. cbn [length].
  destruct (decide (0 + 1 < S (S (length l)))); [|lia]. simpl. f_equal.
  rewrite <- IH, omap_fmap_compose.
  apply list_omap_ext, Forall2_same_length_lookup_2; [done|].
  intros i x y Hx Hy. simplify_eq. simpl. apply pair_at_SS.
Qed.

Lemma generate_pairs_chunk users_dict rng :
  (generate_pairs users_dict rng).1
  = chunk2 (shuffle (map_to_list users_dict) rng).1.
Proof.
  unfold generate_pairs.
  destruct (shuffle (map_to_list users_dict) rng) as [user_items rng'].
  apply pairs_of_items_chunk.
Qed.

(** ** Facts about the partition in twos *)

Lemma chunk2_ids (l : list Item) : chunk2 l ≫= outcome_ids = l.*1.
Proof.
  induction l as [|a|a b l IH] using list_ind2; [done..|].
  cbn [chunk2]. rewrite bind_cons, IH. done.
Qed.

Lemma chunk2_length {A} (l : list A) :
  length (chunk2 l) = Nat.div2 (S (length l)).
Proof.
  induction l as [|a|a b l IH] using list_ind2; [done..|].
  cbn [chunk2 length]. by rewrite IH.
Qed.

Lemma chunk2_matched {A} (l : list A) :
  count_matched (chunk2 l) = Nat.div2 (length l).
Proof.
  unfold count_matched.
  induction l as [|a|a b l IH] using list_ind2; [done..|].
  cbn [chunk2 length]. rewrite filter_cons_True by done.
  cbn [length Nat.div2]. by rewrite IH.
Qed.

Lemma chunk2_singletons {A} (l : list A) :
  count_singletons (chunk2 l) = if Nat.even (length l) then 0 else 1.
Proof.
  unfold count_singletons.
  induction l as [|a|a b l IH] using list_ind2; [done..|].
  cbn [chunk2 length]. rewrite filter_cons_False by (by intros ?).
  rewrite IH. done.
Qed.

Lemma chunk2_init_matched {A} (l : list A) :
  Forall (λ p, is_matched p = true)
    (take (length (chunk2 l) - 1) (chunk2 l)).
Proof.
  induction l as [|a|a b l IH] using list_ind2; [by constructor..|].
  cbn [chunk2 length]. rewrite Nat.sub_1_r. cbn [Nat.pred].
  destruct (chunk2 l) as [|p ps] eqn:Hc; [by constructor|].
  cbn [length take]. constructor; [done|].
  revert IH. cbn [length]. by rewrite Nat.sub_1_r.
Qed.

Lemma div2_half n : Nat.div2 n = n / 2.
Proof. by rewrite Nat.div2_div. Qed.

Lemma even_pred_half n :
  (if Nat.even n then n / 2 else (n - 1) / 2) = Nat.div2 n.
Proof.
  rewrite !div2_half. destruct (Nat.even n) eqn:He; [done|].
  assert (Nat.odd n = true) as [k ->]%Nat.odd_spec.
  { by rewrite <- Nat.negb_even, He. }
  replace (2 * k + 1 - 1) with (k * 2) by lia.
  rewrite Nat.div_mul by done.
  replace (2 * k + 1) with (1 + k * 2) by lia.
  by rewrite Nat.div_add.
Qed.

(** ** Exactness and shape of [generate_pairs] *)

(** C1.  For every roster and every state of the random generator, the
    identifiers carried by the outcomes of [generate_pairs], taken together,
    are the identifiers of the roster: the sequence has no duplicate, an
    identifier occurs in it exactly when it is a key of the roster, and
    there are as many as the roster has entries. *)
Theorem generate_pairs_exact (users_dict : gmap string User) (rng : Rng) :
  NoDup ((generate_pairs users_dict rng).1 ≫= outcome_ids)
  ∧ (∀ id, id ∈ (generate_pairs users_dict rng).1 ≫= outcome_ids
           ↔ id ∈ dom users_dict)
  ∧ length ((generate_pairs users_dict rng).1 ≫= outcome_ids)
    = size users_dict
  ∧ (generate_pairs users_dict rng).1 ≫= outcome_ids
    ≡ₚ (map_to_list users_dict).*1.
Proof.
  rewrite generate_pairs_chunk, chunk2_ids.
  assert ((shuffle (map_to_list users_dict) rng).1.*1
          ≡ₚ (map_to_list users_dict).*1) as Hp
    by (by rewrite shuffle_perm).
  split_and!.
  - rewrite Hp. apply NoDup_fst_map_to_list.
  - intros id. rewrite Hp, elem_of_dom, list_elem_of_fmap. split.
    + intros ([k v] & -> & Hkv). apply elem_of_map_to_list in Hkv. eauto.
    + intros [v Hv]. exists (id, v). split; [done|].
      by apply elem_of_map_to_list.
  - by rewrite Hp, length_fmap, length_map_to_list.
  - done.
Qed.

(** C7.  A roster of even size [n] gives [n / 2] matched outcomes and no
    singleton, a roster of odd size [(n - 1) / 2] matched outcomes and one
    singleton; every outcome before the final one is matched; the empty
    roster gives the empty sequence and a roster of one participant gives
    one singleton outcome for that participant. *)
Theorem generate_pairs_shape (users_dict : gmap string User) (rng : Rng) :
  count_matched (generate_pairs users_dict rng).1
    = (if Nat.even (size users_dict) then size users_dict / 2
       else (size users_dict - 1) / 2)
  ∧ count_singletons (generate_pairs users_dict rng).1
    = (if Nat.even (size users_dict) then 0 else 1)
  ∧ Forall (λ p, is_matched p = true)
      (take (length (generate_pairs users_dict rng).1 - 1)
         (generate_pairs users_dict rng).1)
  ∧ (generate_pairs (∅ : gmap string User) rng).1 = []
  ∧ (∀ id u, (generate_pairs ({[id := u]} : gmap string User) rng).1
             = [((id, u), None)]).
Proof.
  rewrite generate_pairs_chunk.
  assert (length (shuffle (map_to_list users_dict) rng).1 = size users_dict)
    as Hlen by (by rewrite shuffle_perm, length_map_to_list).
  split_and!.
  - by rewrite chunk2_matched, Hlen, even_pred_half.
  - by rewrite chunk2_singletons, Hlen.
  - apply chunk2_init_matched.
  - rewrite generate_pairs_chunk, map_to_list_empty. done.
  - intros id u. rewrite generate_pairs_chunk, map_to_list_singleton. done.
Qed.

(** ** The weekly job, group by group *)

Lemma pair_group_sent_key env k g rng s :
  s ∈ (pair_group env k g rng).2 → s.1.1 = k.
Proof.
  unfold pair_group. repeat case_decide.
  - intros []%elem_of_nil.
  - by intros ->%list_elem_of_singleton.
  - destruct (generate_pairs (users g) rng) as [prs rng'].
    destruct (send_message env k _); by intros ->%list_elem_of_singleton.
Qed.

Lemma job_fold_other env kvs (st : JobState) k :
  k ∉ kvs.*1 →
  (foldl (job_step env) st kvs).1.1 !! k = st.1.1 !! k.
Proof.
  revert st. induction kvs as [|[k' g] kvs IH]; intros st Hk; [done|].
  rewrite fmap_cons, not_elem_of_cons in Hk. destruct Hk as [Hne Hk].
  cbn [foldl]. rewrite IH by done.
  destruct st as [[data rng] out]. unfold job_step. cbn [fst snd].
  destruct (pair_group env k' g rng) as [[g' rng'] sent]. cbn [fst snd].
  by rewrite lookup_insert_ne.
Qed.

Lemma job_fold_outbox_mono env kvs (st : JobState) s :
  s ∈ st.2 → s ∈ (foldl (job_step env) st kvs).2.
Proof.
  revert st. induction kvs as [|[k' g] kvs IH]; intros st Hs; [done|].
  cbn [foldl]. apply IH.
  destruct st as [[data rng] out]. unfold job_step. cbn [fst snd] in *.
  destruct (pair_group env k' g rng) as [[g' rng'] sent]. cbn [snd].
  apply elem_of_app. by left.
Qed.

Lemma job_fold_at env kvs (st : JobState) k g :
  NoDup kvs.*1 → (k, g) ∈ kvs →
  ∃ rng_k,
    (foldl (job_step env) st kvs).1.1 !! k
      = Some (pair_group env k g rng_k).1.1
    ∧ ∀ s, s ∈ (pair_group env k g rng_k).2
           → s ∈ (foldl (job_step env) st kvs).2.
Proof.
  revert st. induction kvs as [|[k' g'] kvs IH]; intros st Hnd Hin.
  { by apply elem_of_nil in Hin. }
  rewrite fmap_cons in Hnd. apply NoDup_cons in Hnd as [Hfresh Hnd].
  apply elem_of_cons in Hin as [[= -> ->]|Hin].
  - destruct st as [[data rng] out]. exists rng.
    cbn [foldl]. unfold job_step at 2 4. cbn [fst snd].
    destruct (pair_group env k' g' rng) as [[g1 rng1] sent] eqn:Hpg.
    cbn [fst snd]. split.
    + rewrite job_fold_other by done. cbn [fst snd].
      by rewrite lookup_insert_eq.
    + intros s Hs. apply job_fold_outbox_mono. cbn [snd].
      apply elem_of_app. by right.
  - cbn [foldl]. by apply IH.
Qed.

Lemma job_fold_outbox_inv env kvs (st : JobState) s :
  s ∈ (foldl (job_step env) st kvs).2 →
  s ∈ st.2 ∨ ∃ k g rng_k, (k, g) ∈ kvs ∧ s ∈ (pair_group env k g rng_k).2.
Proof.
  revert st. induction kvs as [|[k' g'] kvs IH]; intros st Hs; [by left|].
  cbn [foldl] in Hs. apply IH in Hs as [Hs|(k & g & rng_k & Hin & Hs)].
  - destruct st as [[data rng] out]. unfold job_step in Hs. cbn [fst snd] in Hs.
    destruct (pair_group env k' g' rng) as [[g1 rng1] sent] eqn:Hpg.
    cbn [snd] in Hs. apply elem_of_app in Hs as [Hs|Hs]; [by left|].
    right. exists k', g', rng. rewrite Hpg. split; [left|done].
  - right. exists k, g, rng_k. split; [by right|done].
Qed.

Lemma weekly_at env data rng k g :
  data !! k = Some g →
  ∃ rng_k,
    (send_weekly_pairings env data rng).1.1 !! k
      = Some (pair_group env k g rng_k).1.1
    ∧ ∀ s, s ∈ (pair_group env k g rng_k).2
           → s ∈ (send_weekly_pairings env data rng).2.
Proof.
  intros Hk. unfold send_weekly_pairings. case_decide as He.
  { by rewrite He, lookup_empty in Hk. }
  apply job_fold_at.
  - apply NoDup_fst_map_to_list.
  - by apply elem_of_map_to_list.
Qed.

Lemma weekly_absent env data rng k :
  data !! k = None → (send_weekly_pairings env data rng).1.1 !! k = None.
Proof.
  intros Hk. unfold send_weekly_pairings. case_decide; [done|].
  rewrite job_fold_other; [done|].
  intros ([k' g] & -> & Hin%elem_of_map_to_list)%list_elem_of_fmap.
  simpl in Hk. congruence.
Qed.

Lemma weekly_outbox env data rng s :
  s ∈ (send_weekly_pairings env data rng).2 →
  ∃ g rng_k, data !! s.1.1 = Some g
             ∧ s ∈ (pair_group env s.1.1 g rng_k).2.
Proof.
  unfold send_weekly_pairings. case_decide; [by intros []%elem_of_nil|].
  intros [[]%elem_of_nil|(k & g & rng_k & Hin & Hs)]%job_fold_outbox_inv.
  apply elem_of_map_to_list in Hin.
  rewrite (pair_group_sent_key _ _ _ _ _ Hs). eauto.
Qed.

(** ** The history list under [append_record] *)

Lemma append_record_last10 h r :
  append_record h r = drop (length h - 9) h ++ [r].
Proof.
  unfold append_record. rewrite length_app. cbn [length].
  case_decide.
  - rewrite drop_app_le by lia. f_equal. f_equal. lia.
  - replace (length h - 9) with 0 by lia. done.
Qed.

Lemma append_record_length h r : length (append_record h r) ≤ 10.
Proof.
  rewrite append_record_last10, length_app, length_drop. cbn [length]. lia.
Qed.

Lemma append_record_full h r :
  length h = 10 → append_record h r = drop 1 h ++ [r].
Proof. intros Hh. by rewrite append_record_last10, Hh. Qed.

(** ** One group of the weekly job *)

Lemma pair_group_empty env k g rng :
  users g = ∅ → pair_group env k g rng = (g, rng, []).
Proof. intros He. unfold pair_group. by rewrite decide_True. Qed.

Lemma pair_group_single env k g rng :
  size (users g) = 1 →
  pair_group env k g rng
  = (g, rng, [(k, NeedMoreParticipants,
               send_message env k NeedMoreParticipants)]).
Proof.
  intros Hs. unfold pair_group.
  rewrite decide_False.
  - rewrite decide_True by lia. done.
  - intros He. rewrite He, map_size_empty in Hs. done.
Qed.

Lemma pair_group_paired env k g rng :
  2 ≤ size (users g) →
  (pair_group env k g rng).1.1
  = (if send_message env k
          (announcement (default "Unknown Group" (chat_title g))
             (generate_pairs (users g) rng).1)
     then set_users ∅ else id)
      (set_pairing_history
         (append_record (history g)
            (round_record (now env k) (generate_pairs (users g) rng).1)) g)
  ∧ (pair_group env k g rng).2
    = [(k, announcement (default "Unknown Group" (chat_title g))
             (generate_pairs (users g) rng).1,
        send_message env k
          (announcement (default "Unknown Group" (chat_title g))
             (generate_pairs (users g) rng).1))].
Proof.
  intros Hs. unfold pair_group.
  rewrite decide_False.
  2:{ intros He. rewrite He, map_size_empty in Hs. lia. }
  rewrite decide_False by lia.
  destruct (generate_pairs (users g) rng) as [prs rng']. cbn [fst].
  by destruct (send_message env k _).
Qed.

Lemma weekly_paired env data rng k g :
  data !! k = Some g → 2 ≤ size (users g) →
  ∃ prs,
    (∃ rng_k, prs = (generate_pairs (users g) rng_k).1)
    ∧ (send_weekly_pairings env data rng).1.1 !! k
      = Some ((if send_message env k
                    (announcement (default "Unknown Group" (chat_title g)) prs)
               then set_users ∅ else id)
                (set_pairing_history
                   (append_record (history g)
                      (round_record (now env k) prs)) g))
    ∧ (k, announcement (default "Unknown Group" (chat_title g)) prs,
       send_message env k
         (announcement (default "Unknown Group" (chat_title g)) prs))
      ∈ (send_weekly_pairings env data rng).2.
Proof.
  intros Hk Hs. destruct (weekly_at env data rng k g Hk) as (rng_k & Hg & Hout).
  destruct (pair_group_paired env k g rng_k Hs) as [Hg' Hsent].
  exists (generate_pairs (users g) rng_k).1. split_and!.
  - by exists rng_k.
  - by rewrite Hg, Hg'.
  - apply Hout. rewrite Hsent. by left.
Qed.

(** ** Records built from the outcomes *)

Lemma pair_entry_ids p : pair_ids (pair_entry p) = outcome_ids p.
Proof. by destruct p as [a [b|]]. Qed.

Lemma round_record_ids d prs :
  record_ids (round_record d prs) = prs ≫= outcome_ids.
Proof.
  unfold record_ids, round_record. cbn [pairs].
  induction prs as [|p prs IH]; [done|].
  rewrite fmap_cons, !bind_cons, IH. by rewrite pair_entry_ids.
Qed.

Lemma chunk2_Forall {A} (P : A → Prop) (l : list A) :
  Forall P l →
  Forall (λ p, P p.1 ∧ from_option P True p.2) (chunk2 l).
Proof.
  induction l as [|a|a b l IH] using list_ind2; intros Hl.
  - constructor.
  - apply Forall_cons_1 in Hl as [Ha _]. by repeat constructor.
  - apply Forall_cons_1 in Hl as [Ha Hl].
    apply Forall_cons_1 in Hl as [Hb Hl].
    cbn [chunk2]. constructor; [done|]. by apply IH.
Qed.

Lemma round_record_from_roster d (us : gmap string User) rng :
  Forall (pair_from_roster us)
    (pairs (round_record d (generate_pairs us rng).1)).
Proof.
  rewrite generate_pairs_chunk. unfold round_record. cbn [pairs].
  apply Forall_fmap.
  assert (Forall (λ it : string * User, us !! it.1 = Some it.2)
            (shuffle (map_to_list us) rng).1) as Hall.
  { rewrite shuffle_perm. apply Forall_forall.
    intros [id u] Hin. by apply elem_of_map_to_list in Hin. }
  apply chunk2_Forall in Hall. eapply Forall_impl; [exact Hall|].
  intros [[id1 u1] [[id2 u2]|]]; cbn; intros [H1 H2]; split; eauto 10.
Qed.

(** ** What one operation does to one group *)

Lemma pair_group_history env k g rng :
  pairing_history (pair_group env k g rng).1.1 = pairing_history g
  ∨ ∃ r, pairing_history (pair_group env k g rng).1.1
         = Some (append_record (history g) r).
Proof.
  unfold pair_group. repeat case_decide; [by left..|].
  destruct (generate_pairs (users g) rng) as [prs rng'].
  destruct (send_message env k _); right; by eexists.
Qed.

Lemma pairme_at u t1 t2 data k g :
  data !! k = Some g →
  ∃ g', (pairme u t1 t2 data).1 !! k = Some g'
        ∧ pairing_history g' = pairing_history g.
Proof.
  intros Hk. unfold pairme.
  case_decide; [by exists g|].
  destruct (decide (k = chat_key u)) as [->|Hne].
  - rewrite Hk.
    destruct (users (set_chat_title (title_of u) g) !! user_key u);
      cbn [fst]; rewrite lookup_insert_eq; by eexists.
  - destruct (users (set_chat_title (title_of u) _) !! user_key u);
      cbn [fst]; rewrite lookup_insert_ne by done; by exists g.
Qed.

Lemma pairme_fresh u t1 t2 data k g' :
  data !! k = None → (pairme u t1 t2 data).1 !! k = Some g' →
  pairing_history g' = Some [].
Proof.
  intros Hk. unfold pairme.
  case_decide; [cbn [fst]; congruence|].
  destruct (decide (k = chat_key u)) as [->|Hne].
  - rewrite Hk.
    destruct (users (set_chat_title (title_of u) _) !! user_key u);
      cbn [fst]; rewrite lookup_insert_eq; by intros [= <-].
  - destruct (users (set_chat_title (title_of u) _) !! user_key u);
      cbn [fst]; rewrite lookup_insert_ne by done; congruence.
Qed.

Lemma leave_at u data k g :
  data !! k = Some g →
  ∃ g', (leave u data).1 !! k = Some g'
        ∧ pairing_history g' = pairing_history g.
Proof.
  intros Hk. unfold leave.
  case_decide; [by exists g|].
  destruct (data !! chat_key u) as [g0|] eqn:Hc; [|by exists g].
  destruct (users g0 !! user_key u); [|by exists g].
  cbn [fst]. destruct (decide (k = chat_key u)) as [->|Hne].
  - rewrite lookup_insert_eq. simplify_eq. by eexists.
  - rewrite lookup_insert_ne by done. by exists g.
Qed.

Lemma leave_fresh u data k :
  data !! k = None → (leave u data).1 !! k = None.
Proof.
  intros Hk. unfold leave.
  case_decide; [done|].
  destruct (data !! chat_key u) as [g0|] eqn:Hc; [|done].
  destruct (users g0 !! user_key u); [|done].
  cbn [fst]. rewrite lookup_insert_ne; [done|]. congruence.
Qed.

Lemma apply_op_at data op k g :
  data !! k = Some g →
  ∃ g', apply_op data op !! k = Some g'
        ∧ (pairing_history g' = pairing_history g
           ∨ ∃ r, pairing_history g' = Some (append_record (history g) r)).
Proof.
  intros Hk. destruct op as [u t1 t2|u|u|env rng]; cbn [apply_op].
  - destruct (pairme_at u t1 t2 data k g Hk) as (g' & ? & ?). eauto.
  - destruct (leave_at u data k g Hk) as (g' & ? & ?). eauto.
  - eauto.
  - destruct (weekly_at env data rng k g Hk) as (rng_k & -> & _).
    eexists. split; [done|]. apply pair_group_history.
Qed.

Lemma apply_op_fresh data op k g' :
  data !! k = None → apply_op data op !! k = Some g' →
  pairing_history g' = Some [].
Proof.
  intros Hk. destruct op as [u t1 t2|u|u|env rng]; cbn [apply_op].
  - by apply pairme_fresh.
  - by rewrite leave_fresh.
  - congruence.
  - by rewrite weekly_absent.
Qed.

Lemma apply_op_bounded data op : bounded data → bounded (apply_op data op).
Proof.
  intros Hb k g' Hk'. destruct (data !! k) as [g|] eqn:Hk.
  - destruct (apply_op_at data op k g Hk) as (g1 & Hg1 & Hh).
    simplify_eq. unfold history at 1.
    destruct Hh as [->|[r ->]].
    + by apply (Hb k).
    + apply append_record_length.
  - unfold history. rewrite (apply_op_fresh data op k g' Hk Hk'). cbn. lia.
Qed.

Lemma run_snoc ops op data : run (ops ++ [op]) data = apply_op (run ops data) op.
Proof. unfold run. by rewrite foldl_app. Qed.

Lemma run_bounded ops data : bounded data → bounded (run ops data).
Proof.
  intros Hb. induction ops as [|op ops IH] using rev_ind; [done|].
  rewrite run_snoc. by apply apply_op_bounded.
Qed.

Lemma bounded_empty : bounded ∅.
Proof. intros k g Hk. by rewrite lookup_empty in Hk. Qed.

(** ** The weekly job on a roster of two or more *)

(** C4.  When the job reaches a group whose roster has at least two
    participants and the transport delivers, the group's roster is empty
    afterwards and its history is the retained part of the old history
    followed by exactly one new record; the identifiers of that record are
    the identifiers of the roster before the job, each once; every stored
    pair carries a participant's id and name first and either a second
    participant's id and name or [None] in both second fields. *)
Theorem weekly_job_pairs_roster env data rng k g :
  data !! k = Some g →
  2 ≤ size (users g) →
  (∀ m, send_message env k m = true) →
  ∃ g' r,
    (send_weekly_pairings env data rng).1.1 !! k = Some g'
    ∧ users g' = ∅
    ∧ history g' = drop (length (history g) - 9) (history g) ++ [r]
    ∧ date r = now env k
    ∧ NoDup (record_ids r)
    ∧ (∀ id, id ∈ record_ids r ↔ id ∈ dom (users g))
    ∧ length (record_ids r) = size (users g)
    ∧ Forall (pair_from_roster (users g)) (pairs r).
Proof.
  intros Hk Hs Hsend.
  destruct (weekly_paired env data rng k g Hk Hs)
    as (prs & [rng_k ->] & Hg' & _).
  rewrite Hsend in Hg'.
  destruct (generate_pairs_exact (users g) rng_k) as (Hnd & Hdom & Hlen & _).
  eexists _, (round_record (now env k) (generate_pairs (users g) rng_k).1).
  split; [exact Hg'|]. split_and!.
  - done.
  - unfold history at 1. cbn. apply append_record_last10.
  - done.
  - by rewrite round_record_ids.
  - intros id. by rewrite round_record_ids.
  - by rewrite round_record_ids.
  - apply round_record_from_roster.
Qed.

Lemma weekly_job_pairs_roster_witness :
  one_group !! "-100" = Some fellowship
  ∧ 2 ≤ size (users fellowship)
  ∧ (∀ m, send_message delivering "-100" m = true)
  ∧ ∃ g' r,
      (send_weekly_pairings delivering one_group [2; 0]).1.1 !! "-100" = Some g'
      ∧ users g' = ∅
      ∧ history g'
        = drop (length (history fellowship) - 9) (history fellowship) ++ [r]
      ∧ date r = now delivering "-100"
      ∧ NoDup (record_ids r)
      ∧ (∀ id, id ∈ record_ids r ↔ id ∈ dom (users fellowship))
      ∧ length (record_ids r) = size (users fellowship)
      ∧ Forall (pair_from_roster (users fellowship)) (pairs r).
Proof.
  assert (one_group !! "-100" = Some fellowship) as H1 by reflexivity.
  assert (2 ≤ size (users fellowship)) as H2 by (vm_compute; lia).
  assert (∀ m, send_message delivering "-100" m = true) as H3
    by reflexivity.
  split_and!; [exact H1|exact H2|exact H3|].
  exact (weekly_job_pairs_roster delivering one_group [2; 0] "-100"
           fellowship H1 H2 H3).
Defined.

(** C3, as the specification states it, fails: with a transport that
    raises, the job on a group of three records the round in the history
    but leaves the three participants registered. *)
Lemma send_failure_keeps_roster :
  one_group !! "-100" = Some fellowship
  ∧ size (users fellowship) = 3
  ∧ (∀ m, send_message failing "-100" m = false)
  ∧ ∃ g',
      (send_weekly_pairings failing one_group []).1.1 !! "-100" = Some g'
      ∧ length (history g') = 1
      ∧ users g' = users fellowship
      ∧ users g' ≠ ∅.
Proof.
  split_and!; [reflexivity..|].
  exists (set_pairing_history
            [round_record sunday (generate_pairs trio []).1] fellowship).
  split_and!; [by vm_compute|done|done|].
  cbn. intros He. apply (f_equal size) in He. vm_compute in He. done.
Qed.

(** C3, amended.  For a group whose roster has at least two participants the
    new record is in the history after the job whether the send returns or
    raises; the roster is emptied when the send returns and is left as it
    was when the send raises. *)
Theorem weekly_job_commit env data rng k g :
  data !! k = Some g →
  2 ≤ size (users g) →
  ∃ g' r msg,
    (send_weekly_pairings env data rng).1.1 !! k = Some g'
    ∧ history g' = drop (length (history g) - 9) (history g) ++ [r]
    ∧ (∀ id, id ∈ record_ids r ↔ id ∈ dom (users g))
    ∧ (k, msg, send_message env k msg) ∈ (send_weekly_pairings env data rng).2
    ∧ users g' = (if send_message env k msg then ∅ else users g).
Proof.
  intros Hk Hs.
  destruct (weekly_paired env data rng k g Hk Hs)
    as (prs & [rng_k ->] & Hg' & Hout).
  destruct (generate_pairs_exact (users g) rng_k) as (_ & Hdom & _).
  eexists _, (round_record (now env k) (generate_pairs (users g) rng_k).1), _.
  split; [exact Hg'|]. split_and!.
  - destruct (send_message env k _); unfold history at 1; cbn;
      apply append_record_last10.
  - intros id. by rewrite round_record_ids.
  - exact Hout.
  - by destruct (send_message env k _).
Qed.

Lemma weekly_job_commit_witness :
  one_group !! "-100" = Some fellowship
  ∧ 2 ≤ size (users fellowship)
  ∧ ∃ g' r msg,
      (send_weekly_pairings failing one_group [1]).1.1 !! "-100" = Some g'
      ∧ history g'
        = drop (length (history fellowship) - 9) (history fellowship) ++ [r]
      ∧ (∀ id, id ∈ record_ids r ↔ id ∈ dom (users fellowship))
      ∧ ("-100", msg, send_message failing "-100" msg)
        ∈ (send_weekly_pairings failing one_group [1]).2
      ∧ users g'
        = (if send_message failing "-100" msg then ∅ else users fellowship).
Proof.
  assert (one_group !! "-100" = Some fellowship) as H1 by reflexivity.
  assert (2 ≤ size (users fellowship)) as H2 by (vm_compute; lia).
  split_and!; [exact H1|exact H2|].
  exact (weekly_job_commit failing one_group [1] "-100" fellowship H1 H2).
Defined.

(** ** The weekly job on a roster of one *)

(** C6.  When the job reaches a group whose roster has exactly one
    participant, it sends the need-more-participants notice to that group
    and nothing else, and the group is afterwards what it was: the
    participant is still registered and the history has no new record. *)
Theorem weekly_job_single env data rng k g :
  data !! k = Some g →
  size (users g) = 1 →
  (send_weekly_pairings env data rng).1.1 !! k = Some g
  ∧ (k, NeedMoreParticipants, send_message env k NeedMoreParticipants)
    ∈ (send_weekly_pairings env data rng).2
  ∧ ∀ m d, (k, m, d) ∈ (send_weekly_pairings env data rng).2
           → m = NeedMoreParticipants.
Proof.
  intros Hk Hs.
  destruct (weekly_at env data rng k g Hk) as (rng_k & Hg & Hout).
  rewrite pair_group_single in Hg, Hout by done. split_and!.
  - done.
  - apply Hout. by left.
  - intros m d (g0 & rng0 & Hk0 & Hin)%weekly_outbox.
    cbn [fst] in Hk0, Hin. simplify_eq.
    rewrite pair_group_single in Hin by done.
    apply list_elem_of_singleton in Hin. by simplify_eq.
Qed.

Lemma weekly_job_single_witness :
  one_waiting !! "-100" = Some waiting
  ∧ size (users waiting) = 1
  ∧ (send_weekly_pairings delivering one_waiting []).1.1 !! "-100"
    = Some waiting
  ∧ ("-100", NeedMoreParticipants,
     send_message delivering "-100" NeedMoreParticipants)
    ∈ (send_weekly_pairings delivering one_waiting []).2
  ∧ ∀ m d, ("-100", m, d) ∈ (send_weekly_pairings delivering one_waiting []).2
           → m = NeedMoreParticipants.
Proof.
  assert (one_waiting !! "-100" = Some waiting) as H1 by reflexivity.
  assert (size (users waiting) = 1) as H2 by reflexivity.
  split_and!; [exact H1|exact H2|..];
    apply (weekly_job_single delivering one_waiting [] "-100" waiting H1 H2).
Defined.

(** ** Retention of the history *)

Lemma last10_snoc (l : list PairingRecord) r :
  append_record (drop (length l - 10) l) r
  = drop (length (l ++ [r]) - 10) (l ++ [r]).
Proof.
  rewrite append_record_last10, length_drop, drop_drop, length_app.
  cbn [length]. rewrite drop_app_le by lia. f_equal. f_equal. lia.
Qed.

Lemma survives_append h h1 r :
  survives h h1 → survives h (append_record h1 r).
Proof.
  intros [->|[new ->]]; right.
  - exists [r]. rewrite append_record_last10, length_app. cbn [length].
    rewrite drop_app_le by lia. f_equal. f_equal. lia.
  - exists (new ++ [r]). rewrite last10_snoc. by rewrite app_assoc.
Qed.

Lemma run_at ops data k g :
  data !! k = Some g →
  ∃ g', run ops data !! k = Some g' ∧ survives (history g) (history g').
Proof.
  intros Hk. induction ops as [|op ops IH] using rev_ind.
  { exists g. split; [done|by left]. }
  destruct IH as (g1 & Hg1 & Hsurv). rewrite run_snoc.
  destruct (apply_op_at (run ops data) op k g1 Hg1) as (g2 & Hg2 & Hh).
  exists g2. split; [done|]. unfold history at 2.
  destruct Hh as [->|[r ->]]; [done|]. by apply survives_append.
Qed.

(** C5.  From a table whose histories hold at most ten records (the empty
    table is one), every run of the bot reaches a table whose histories
    hold at most ten records.  Appending keeps the order of storage: the
    result is the retained records in their order followed by the new one,
    never longer than ten; on a history of exactly ten records it drops the
    oldest one only.  This is how the job extends the history of a group
    with at least two participants. *)
Theorem history_retention ops data :
  bounded data →
  bounded (run ops data)
  ∧ (∀ h r, length (append_record h r) ≤ 10
            ∧ append_record h r = drop (length h - 9) h ++ [r])
  ∧ (∀ h r, length h = 10 → append_record h r = drop 1 h ++ [r])
  ∧ (∀ env rng k g,
       run ops data !! k = Some g → 2 ≤ size (users g) →
       ∃ r, history <$> (send_weekly_pairings env (run ops data) rng).1.1 !! k
            = Some (append_record (history g) r)).
Proof.
  intros Hb. split_and!.
  - by apply run_bounded.
  - intros h r. split; [apply append_record_length|apply append_record_last10].
  - apply append_record_full.
  - intros env rng k g Hk Hs.
    destruct (weekly_paired env (run ops data) rng k g Hk Hs)
      as (prs & _ & -> & _).
    exists (round_record (now env k) prs).
    by destruct (send_message env k _).
Qed.

Lemma history_retention_witness :
  bounded ∅
  ∧ bounded (run a_week ∅)
  ∧ (∀ h r, length (append_record h r) ≤ 10
            ∧ append_record h r = drop (length h - 9) h ++ [r])
  ∧ (∀ h r, length h = 10 → append_record h r = drop 1 h ++ [r])
  ∧ (∀ env rng k g,
       run a_week ∅ !! k = Some g → 2 ≤ size (users g) →
       ∃ r, history <$> (send_weekly_pairings env (run a_week ∅) rng).1.1 !! k
            = Some (append_record (history g) r)).
Proof.
  split; [exact bounded_empty|].
  exact (history_retention a_week ∅ bounded_empty).
Defined.

(** ** Groups are never removed *)

(** C9.  A group that is in the table stays in it under every run of the
    bot, and its history survives: it is the old history, or the last ten of
    the old history followed by the records appended since.  In particular
    [leave] and [pairme] keep the group with its history untouched, and the
    weekly job, roster clear included, keeps the group with its history
    either untouched or extended by the new record. *)
Theorem group_entry_persists data k g :
  data !! k = Some g →
  (∀ ops, ∃ g', run ops data !! k = Some g'
                ∧ survives (history g) (history g'))
  ∧ (∀ u, ∃ g', (leave u data).1 !! k = Some g'
                ∧ pairing_history g' = pairing_history g)
  ∧ (∀ u t1 t2, ∃ g', (pairme u t1 t2 data).1 !! k = Some g'
                      ∧ pairing_history g' = pairing_history g)
  ∧ (∀ env rng, ∃ g',
       (send_weekly_pairings env data rng).1.1 !! k = Some g'
       ∧ (pairing_history g' = pairing_history g
          ∨ ∃ r, pairing_history g' = Some (append_record (history g) r))).
Proof.
  intros Hk. split_and!.
  - intros ops. by apply run_at.
  - intros u. by apply leave_at.
  - intros u t1 t2. by apply pairme_at.
  - intros env rng. apply (apply_op_at data (OpWeekly env rng) k g Hk).
Qed.

Lemma group_entry_persists_witness :
  one_waiting !! "-100" = Some waiting
  ∧ (∀ ops, ∃ g', run ops one_waiting !! "-100" = Some g'
                  ∧ survives (history waiting) (history g'))
  ∧ (∀ u, ∃ g', (leave u one_waiting).1 !! "-100" = Some g'
                ∧ pairing_history g' = pairing_history waiting)
  ∧ (∀ u t1 t2, ∃ g', (pairme u t1 t2 one_waiting).1 !! "-100" = Some g'
                      ∧ pairing_history g' = pairing_history waiting)
  ∧ (∀ env rng, ∃ g',
       (send_weekly_pairings env one_waiting rng).1.1 !! "-100" = Some g'
       ∧ (pairing_history g' = pairing_history waiting
          ∨ ∃ r, pairing_history g'
                 = Some (append_record (history waiting) r))).
Proof.
  assert (one_waiting !! "-100" = Some waiting) as H1 by reflexivity.
  split; [exact H1|].
  exact (group_entry_persists one_waiting "-100" waiting H1).
Defined.

(** ** Repeated registration *)

Lemma pairme_registered u t1 t2 data g usr :
  effective_chat_type u ≠ Private →
  data !! chat_key u = Some g →
  users g !! user_key u = Some usr →
  pairme u t1 t2 data
  = (<[chat_key u := set_chat_title (title_of u) g]> data,
     AlreadyRegistered (display_name u)).
Proof.
  intros Hp Hg Hu. unfold pairme.
  rewrite decide_False by done. rewrite Hg. cbn [set_chat_title users].
  by rewrite Hu.
Qed.

Lemma pairme_registers u t1 t2 data :
  effective_chat_type u ≠ Private →
  ∃ g1, (pairme u t1 t2 data).1 !! chat_key u = Some g1
        ∧ is_Some (users g1 !! user_key u).
Proof.
  intros Hp. unfold pairme. rewrite decide_False by done.
  destruct (users (set_chat_title (title_of u) _) !! user_key u) eqn:Hu;
    cbn [fst]; rewrite lookup_insert_eq; eexists; (split; [done|]).
  - by rewrite Hu.
  - cbn [set_users users]. by rewrite lookup_insert_eq.
Qed.

(** C8.  After a participant has registered in a group, a second [pairme]
    by the same participant in the same group answers that they are already
    registered, and the roster of the group is the same as after the first
    call, so its size is unchanged. *)
Theorem pairme_twice u1 u2 t1 t2 t3 t4 data :
  effective_chat_type u1 ≠ Private →
  effective_chat_type u2 ≠ Private →
  effective_chat_id u2 = effective_chat_id u1 →
  effective_user_id u2 = effective_user_id u1 →
  ∃ g1 g2,
    (pairme u1 t1 t2 data).1 !! chat_key u1 = Some g1
    ∧ (pairme u2 t3 t4 (pairme u1 t1 t2 data).1).1 !! chat_key u1 = Some g2
    ∧ users g2 = users g1
    ∧ size (users g2) = size (users g1)
    ∧ (pairme u2 t3 t4 (pairme u1 t1 t2 data).1).2
      = AlreadyRegistered (display_name u2).
Proof.
  intros Hp1 Hp2 Hc Hu.
  assert (chat_key u2 = chat_key u1) as Hck by (unfold chat_key; by rewrite Hc).
  assert (user_key u2 = user_key u1) as Huk by (unfold user_key; by rewrite Hu).
  destruct (pairme_registers u1 t1 t2 data Hp1) as (g1 & Hg1 & [usr Husr]).
  rewrite <- Hck in Hg1. rewrite <- Huk in Husr.
  rewrite (pairme_registered u2 t3 t4 _ g1 usr Hp2 Hg1 Husr). cbn [fst snd].
  rewrite Hck in Hg1 |- *. rewrite lookup_insert_eq.
  by exists g1, (set_chat_title (title_of u2) g1).
Qed.

Lemma pairme_twice_witness :
  effective_chat_type alice_asks ≠ Private
  ∧ effective_chat_type alice_again ≠ Private
  ∧ effective_chat_id alice_again = effective_chat_id alice_asks
  ∧ effective_user_id alice_again = effective_user_id alice_asks
  ∧ ∃ g1 g2,
      (pairme alice_asks "t0" "t1" ∅).1 !! chat_key alice_asks = Some g1
      ∧ (pairme alice_again "t2" "t3" (pairme alice_asks "t0" "t1" ∅).1).1
          !! chat_key alice_asks = Some g2
      ∧ users g2 = users g1
      ∧ size (users g2) = size (users g1)
      ∧ (pairme alice_again "t2" "t3" (pairme alice_asks "t0" "t1" ∅).1).2
        = AlreadyRegistered (display_name alice_again).
Proof.
  assert (effective_chat_type alice_asks ≠ Private) as H1 by (by vm_compute).
  assert (effective_chat_type alice_again ≠ Private) as H2 by (by vm_compute).
  split_and!; [exact H1|exact H2|reflexivity..|].
  exact (pairme_twice alice_asks alice_again "t0" "t1" "t2" "t3" ∅
           H1 H2 eq_refl eq_refl).
Defined.

(** C10.  [pairme] by a participant who is already registered in the group
    changes the stored chat title to the title of the call and nothing else:
    the table is the old one with that group's title replaced, so the
    participant's record, [joined_at] included, the rest of the roster, the
    history, the creation time and every other group are as before. *)
Theorem pairme_registered_frame u t1 t2 data g usr :
  effective_chat_type u ≠ Private →
  data !! chat_key u = Some g →
  users g !! user_key u = Some usr →
  (pairme u t1 t2 data).1
    = <[chat_key u := set_chat_title (title_of u) g]> data
  ∧ (∃ g', (pairme u t1 t2 data).1 !! chat_key u = Some g'
           ∧ users g' !! user_key u = Some usr
           ∧ users g' = users g
           ∧ pairing_history g' = pairing_history g
           ∧ created_at g' = created_at g
           ∧ chat_title g' = Some (title_of u))
  ∧ (∀ k, k ≠ chat_key u → (pairme u t1 t2 data).1 !! k = data !! k)
  ∧ (∀ t, effective_chat_title u = Some t → t ≠ "" → title_of u = t).
Proof.
  intros Hp Hg Hu.
  rewrite (pairme_registered u t1 t2 data g usr Hp Hg Hu). cbn [fst].
  split_and!.
  - done.
  - eexists. rewrite lookup_insert_eq. by split_and!.
  - intros k Hk. by rewrite lookup_insert_ne.
  - intros t Ht Hne. unfold title_of, py_or. rewrite Ht. cbn [truthy].
    by rewrite bool_decide_eq_true_2.
Qed.

Lemma pairme_registered_frame_witness :
  effective_chat_type alice_again ≠ Private
  ∧ one_group !! chat_key alice_again = Some fellowship
  ∧ users fellowship !! user_key alice_again = Some alice
  ∧ (pairme alice_again "t2" "t3" one_group).1
      = <[chat_key alice_again
          := set_chat_title (title_of alice_again) fellowship]> one_group
  ∧ (∃ g', (pairme alice_again "t2" "t3" one_group).1
             !! chat_key alice_again = Some g'
           ∧ users g' !! user_key alice_again = Some alice
           ∧ users g' = users fellowship
           ∧ pairing_history g' = pairing_history fellowship
           ∧ created_at g' = created_at fellowship
           ∧ chat_title g' = Some (title_of alice_again))
  ∧ (∀ k, k ≠ chat_key alice_again
          → (pairme alice_again "t2" "t3" one_group).1 !! k = one_group !! k)
  ∧ (∀ t, effective_chat_title alice_again = Some t → t ≠ ""
          → title_of alice_again = t).
Proof.
  assert (effective_chat_type alice_again ≠ Private) as H1 by (by vm_compute).
  assert (one_group !! chat_key alice_again = Some fellowship) as H2
    by reflexivity.
  assert (users fellowship !! user_key alice_again = Some alice) as H3
    by reflexivity.
  split_and!; [exact H1|exact H2|exact H3|..];
    apply (pairme_registered_frame alice_again "t2" "t3" one_group
             fellowship alice H1 H2 H3).
Defined.

(** ** The search of [mypair] *)

Lemma names_partner_scan user_id r :
  names_partner user_id r = true →
  ∃ partner, scan_pairs user_id (pairs r) = Some partner
             ∧ truthy partner = true.
Proof.
  unfold names_partner.
  destruct (scan_pairs user_id (pairs r)) as [partner|]; [|done].
  intros Ht. by exists partner.
Qed.

Lemma scan_history_step_idle user_id r recs st :
  names_partner user_id r = false →
  truthy st.1 = false →
  ∃ st', truthy st'.1 = false
         ∧ scan_history user_id (r :: recs) st
           = scan_history user_id recs st'.
Proof.
  unfold names_partner. intros Hr Hst. cbn [scan_history].
  destruct (scan_pairs user_id (pairs r)) as [partner|]; cbn in Hr.
  - exists (partner, Some (date r)). cbn [fst]. by rewrite Hr.
  - exists st. by rewrite Hst.
Qed.

Lemma scan_history_first_naming user_id recs st :
  truthy st.1 = false →
  match first_naming user_id recs with
  | Some r => scan_history user_id recs st
              = (mjoin (scan_pairs user_id (pairs r)), Some (date r))
  | None => truthy (scan_history user_id recs st).1 = false
  end.
Proof.
  revert st. induction recs as [|r recs IH]; intros st Hst; [done|].
  cbn [first_naming]. destruct (names_partner user_id r) eqn:Hr.
  - apply names_partner_scan in Hr as (partner & Hscan & Ht).
    cbn [scan_history]. rewrite Hscan. cbn [fst mjoin option_join].
    by rewrite Ht.
  - destruct (scan_history_step_idle user_id r recs st Hr Hst)
      as (st' & Hst' & ->).
    by apply IH.
Qed.

Lemma shown_pairing_falsy st : truthy st.1 = false → shown_pairing st = None.
Proof.
  destruct st as [[p|] [d|]]; cbn [fst shown_pairing]; try done.
  by intros ->.
Qed.

(** The record found by [first_naming] on the reversed history is the most
    recent one that names a partner. *)
Lemma first_naming_split user_id h r :
  first_naming user_id (reverse h) = Some r →
  ∃ older newer,
    h = older ++ r :: newer
    ∧ names_partner user_id r = true
    ∧ Forall (λ r', names_partner user_id r' = false) newer.
Proof.
  induction h as [|r' h IH] using rev_ind; [done|].
  rewrite reverse_snoc. cbn [first_naming].
  destruct (names_partner user_id r') eqn:Hr'.
  - intros [= ->]. by exists h, [].
  - intros (older & newer & -> & Hr & Hnew)%IH.
    exists older, (newer ++ [r']). split_and!.
    + by rewrite <- app_assoc.
    + done.
    + apply Forall_app. split; [done|]. by constructor.
Qed.

(** C2, as the specification states it, fails: alice was paired with bob in
    the first round and left over in the second; the first record containing
    her, most recent first, is the second round and gives no partner, yet the
    search goes on to the first round and [mypair] shows bob with the date
    of that earlier round. *)
Lemma mypair_skips_singleton_round :
  lastPartnerOf_spec "11" [round1; round2] = Some (None, date round2)
  ∧ last_pairing "11" two_rounds = (Some "bob", Some (date round1))
  ∧ mypair alice_asks (<["-100" := two_rounds]> ∅)
    = PairingStatus "alice" None (Some ("bob", date round1)).
Proof. by vm_compute. Qed.

(** C2, amended.  The search of [mypair] goes through the history most
    recent first and stops at the first record whose pair for the
    participant names a partner; it returns that partner and the date of
    that record, never those of an older record.  A record in which the
    participant is the odd person out does not stop the search.  When no
    record names a partner, no last partner is shown. *)
Theorem last_pairing_first_naming user_id g :
  match first_naming user_id (reverse (history g)) with
  | Some r =>
      last_pairing user_id g
      = (mjoin (scan_pairs user_id (pairs r)), Some (date r))
      ∧ ∃ older newer,
          history g = older ++ r :: newer
          ∧ names_partner user_id r = true
          ∧ Forall (λ r', names_partner user_id r' = false) newer
  | None => shown_pairing (last_pairing user_id g) = None
  end.
Proof.
  unfold last_pairing, history.
  destruct (pairing_history g) as [h|]; [|done].
  change (default [] (Some h)) with h.
  pose proof (scan_history_first_naming user_id (reverse h) (None, None)
                eq_refl) as Hscan.
  destruct (first_naming user_id (reverse h)) as [r|] eqn:Hf; cbv beta iota.
  - split; [done|]. by apply first_naming_split.
  - by apply shown_pairing_falsy.
Qed.

(** ** Two worked runs *)

Example eleventh_record_evicts_oldest :
  length ten_rounds = 10
  ∧ append_record ten_rounds round1 = drop 1 ten_rounds ++ [round1]
  ∧ length (append_record ten_rounds round1) = 10.
Proof. by vm_compute. Qed.

Example two_weeks_run :
  ∃ g r,
    run two_weeks ∅ !! "-100" = Some g
    ∧ history g = [r]
    ∧ length (pairs r) = 2
    ∧ record_ids r ≡ₚ ["11"; "12"; "13"]
    ∧ users g !! "14" = Some (mkUser "dan" "t7" None None)
    ∧ size (users g) = 1.
Proof.
  eexists _, _. split; [by vm_compute|].
  split; [done|]. split; [done|]. split; [|done].
  vm_compute. repeat first [done | apply Permutation_skip | apply perm_swap
                            | eapply perm_trans; [apply perm_swap|]].
Qed.

(** * Further properties of the handlers *)

(** ** Registration *)

Lemma display_name_nonempty u : display_name u ≠ "".
Proof.
  unfold display_name, py_or.
  destruct (effective_user_username u) as [n|]; cbn [truthy].
  - case_bool_decide as Hn; [done|].
    destruct (effective_user_first_name u) as [f|]; cbn [truthy]; [|done].
    by case_bool_decide.
  - destruct (effective_user_first_name u) as [f|]; cbn [truthy]; [|done].
    by case_bool_decide.
Qed.

Lemma roster_lookup data k g : data !! k = Some g → roster data k = users g.
Proof. intros Hk. unfold roster. by rewrite Hk. Qed.

Lemma pairme_unregistered u t1 t2 data :
  effective_chat_type u ≠ Private →
  roster data (chat_key u) !! user_key u = None →
  ∃ g2,
    pairme u t1 t2 data
    = (<[chat_key u := g2]> data, Added (display_name u) (size (users g2)))
    ∧ users g2
      = <[user_key u := mkUser (display_name u) t2 None None]>
          (roster data (chat_key u)).
Proof.
  intros Hp Hnew. unfold pairme. rewrite decide_False by done.
  set (g0 := match data !! chat_key u with
             | Some g => g
             | None => mkGroup (Some (title_of u)) ∅ t1 (Some [])
             end).
  assert (users g0 = roster data (chat_key u)) as Hg0.
  { unfold g0, roster. by destruct (data !! chat_key u). }
  cbn [set_chat_title users]. rewrite Hg0, Hnew.
  eexists. split; [done|]. cbn [set_users users]. done.
Qed.

Lemma pairme_other u t1 t2 data k :
  k ≠ chat_key u → (pairme u t1 t2 data).1 !! k = data !! k.
Proof.
  intros Hk. unfold pairme. case_decide; [done|].
  destruct (users (set_chat_title (title_of u) _) !! user_key u);
    cbn [fst]; by rewrite lookup_insert_ne.
Qed.

Lemma leave_registered u data g usr :
  effective_chat_type u ≠ Private →
  data !! chat_key u = Some g →
  users g !! user_key u = Some usr →
  leave u data
  = (<[chat_key u := set_users (delete (user_key u) (users g)) g]> data,
     Removed (display_name u)).
Proof.
  intros Hp Hg Hu. unfold leave. rewrite decide_False by done.
  by rewrite Hg, Hu.
Qed.

(** X1.  In a group chat, [pairme] by someone who is not in the roster of
    that chat adds exactly that participant: the roster is the old one with
    a record under the caller's id holding the display name, the time of the
    call and empty partner fields; every other participant is kept; the
    answer reports the old roster size plus one; other groups are as they
    were. *)
Theorem pairme_adds u t1 t2 data :
  effective_chat_type u ≠ Private →
  roster data (chat_key u) !! user_key u = None →
  (pairme u t1 t2 data).2
    = Added (display_name u) (S (size (roster data (chat_key u))))
  ∧ roster (pairme u t1 t2 data).1 (chat_key u)
    = <[user_key u := mkUser (display_name u) t2 None None]>
        (roster data (chat_key u))
  ∧ size (roster (pairme u t1 t2 data).1 (chat_key u))
    = S (size (roster data (chat_key u)))
  ∧ (∀ id, id ≠ user_key u →
        roster (pairme u t1 t2 data).1 (chat_key u) !! id
        = roster data (chat_key u) !! id)
  ∧ (∀ k, k ≠ chat_key u → (pairme u t1 t2 data).1 !! k = data !! k).
Proof.
  intros Hp Hnew.
  destruct (pairme_unregistered u t1 t2 data Hp Hnew) as (g2 & -> & Hus).
  cbn [fst snd]. unfold roster at 2 4 6. rewrite lookup_insert_eq.
  cbn [from_option]. rewrite Hus. split_and!.
  - by rewrite map_size_insert_None.
  - done.
  - by rewrite map_size_insert_None.
  - intros id Hid. by rewrite lookup_insert_ne.
  - intros k Hk. by rewrite lookup_insert_ne.
Qed.

Lemma pairme_adds_witness :
  effective_chat_type erin_asks ≠ Private
  ∧ roster one_group (chat_key erin_asks) !! user_key erin_asks = None
  ∧ (pairme erin_asks "t8" "t9" one_group).2
      = Added (display_name erin_asks)
          (S (size (roster one_group (chat_key erin_asks))))
  ∧ roster (pairme erin_asks "t8" "t9" one_group).1 (chat_key erin_asks)
      = <[user_key erin_asks := mkUser (display_name erin_asks) "t9" None None]>
          (roster one_group (chat_key erin_asks))
  ∧ size (roster (pairme erin_asks "t8" "t9" one_group).1 (chat_key erin_asks))
      = S (size (roster one_group (chat_key erin_asks)))
  ∧ (∀ id, id ≠ user_key erin_asks →
        roster (pairme erin_asks "t8" "t9" one_group).1 (chat_key erin_asks)
          !! id
        = roster one_group (chat_key erin_asks) !! id)
  ∧ (∀ k, k ≠ chat_key erin_asks →
        (pairme erin_asks "t8" "t9" one_group).1 !! k = one_group !! k).
Proof.
  assert (effective_chat_type erin_asks ≠ Private) as H1 by (by vm_compute).
  assert (roster one_group (chat_key erin_asks) !! user_key erin_asks = None)
    as H2 by reflexivity.
  split_and!; [exact H1|exact H2|..];
    apply (pairme_adds erin_asks "t8" "t9" one_group H1 H2).
Defined.

(** X2.  In a group chat, the first [pairme] of a chat that has no group
    creates one with the title of the call, the creation time of the call,
    an empty history and the caller as its only participant; a [pairme] in a
    chat that has a group keeps that group's creation time and history and
    sets its title to the title of the call. *)
Theorem pairme_group_metadata u t1 t2 data :
  effective_chat_type u ≠ Private →
  (data !! chat_key u = None →
     (pairme u t1 t2 data).1
     = <[chat_key u
         := mkGroup (Some (title_of u))
              {[user_key u := mkUser (display_name u) t2 None None]}
              t1 (Some [])]> data
     ∧ (pairme u t1 t2 data).2 = Added (display_name u) 1)
  ∧ (∀ g, data !! chat_key u = Some g →
       ∃ g', (pairme u t1 t2 data).1 !! chat_key u = Some g'
             ∧ created_at g' = created_at g
             ∧ pairing_history g' = pairing_history g
             ∧ chat_title g' = Some (title_of u))
  ∧ dom (pairme u t1 t2 data).1 = {[chat_key u]} ∪ dom data.
Proof.
  intros Hp. unfold pairme. rewrite decide_False by done. split_and!.
  - intros ->. cbn [set_chat_title users]. rewrite lookup_empty.
    cbn [fst snd set_users users chat_title created_at pairing_history].
    split; [by rewrite insert_empty|].
    by rewrite map_size_insert_None, map_size_empty.
  - intros g ->. cbn [set_chat_title users].
    destruct (users g !! user_key u); cbn [fst];
      rewrite lookup_insert_eq; by eexists.
  - destruct (users (set_chat_title (title_of u) _) !! user_key u);
      cbn [fst]; apply dom_insert_L.
Qed.

Lemma pairme_group_metadata_witness :
  effective_chat_type alice_asks ≠ Private
  ∧ ((∅ : gmap string Group) !! chat_key alice_asks = None →
       (pairme alice_asks "t0" "t1" ∅).1
       = <[chat_key alice_asks
           := mkGroup (Some (title_of alice_asks))
                {[user_key alice_asks
                  := mkUser (display_name alice_asks) "t1" None None]}
                "t0" (Some [])]> ∅
       ∧ (pairme alice_asks "t0" "t1" ∅).2
         = Added (display_name alice_asks) 1)
  ∧ (∀ g, (∅ : gmap string Group) !! chat_key alice_asks = Some g →
       ∃ g', (pairme alice_asks "t0" "t1" ∅).1 !! chat_key alice_asks
             = Some g'
             ∧ created_at g' = created_at g
             ∧ pairing_history g' = pairing_history g
             ∧ chat_title g' = Some (title_of alice_asks))
  ∧ dom (pairme alice_asks "t0" "t1" ∅).1
    = {[chat_key alice_asks]} ∪ dom (∅ : gmap string Group).
Proof.
  assert (effective_chat_type alice_asks ≠ Private) as H1 by (by vm_compute).
  split; [exact H1|].
  exact (pairme_group_metadata alice_asks "t0" "t1" ∅ H1).
Defined.

(** X3.  In a private chat [pairme], [leave] and [mypair] only answer that
    the command belongs in the group chat: no group is created and the
    table is what it was. *)
Theorem private_chat_rejected u t1 t2 data :
  effective_chat_type u = Private →
  pairme u t1 t2 data = (data, PrivateChatRejected)
  ∧ leave u data = (data, PrivateChatRejected)
  ∧ mypair u data = PrivateChatRejected
  ∧ ∀ ops, Forall (λ op, match op with
                         | OpPairme u' _ _ | OpLeave u' | OpMypair u' =>
                             effective_chat_type u' = Private
                         | OpWeekly _ _ => False
                         end) ops →
           run ops data = data.
Proof.
  intros Hp. unfold pairme, leave, mypair. rewrite !decide_True by done.
  split_and!; [done..|].
  intros ops Hops. induction ops as [|op ops IH] using rev_ind; [done|].
  apply Forall_app in Hops as [Hops Hop].
  apply Forall_cons_1 in Hop as [Hop _].
  rewrite run_snoc, IH by done.
  destruct op as [u' t1' t2'|u'|u'|env rng]; cbn [apply_op]; [..|done|done].
  - unfold pairme. by rewrite decide_True.
  - unfold leave. by rewrite decide_True.
Qed.

Lemma private_chat_rejected_witness :
  effective_chat_type alice_in_private = Private
  ∧ pairme alice_in_private "t0" "t1" one_group
    = (one_group, PrivateChatRejected)
  ∧ leave alice_in_private one_group = (one_group, PrivateChatRejected)
  ∧ mypair alice_in_private one_group = PrivateChatRejected
  ∧ ∀ ops, Forall (λ op, match op with
                         | OpPairme u' _ _ | OpLeave u' | OpMypair u' =>
                             effective_chat_type u' = Private
                         | OpWeekly _ _ => False
                         end) ops →
           run ops one_group = one_group.
Proof.
  split; [reflexivity|].
  exact (private_chat_rejected alice_in_private "t0" "t1" one_group eq_refl).
Defined.

(** ** Leaving *)

(** X4.  In a group chat, [leave] by a registered participant answers that
    they were removed and deletes exactly their entry: they are no longer in
    the roster, every other participant keeps their record, the roster is
    one smaller, the group keeps its title, creation time and history, and
    other groups are as they were. *)
Theorem leave_removes u data g usr :
  effective_chat_type u ≠ Private →
  data !! chat_key u = Some g →
  users g !! user_key u = Some usr →
  (leave u data).2 = Removed (display_name u)
  ∧ (∃ g', (leave u data).1 !! chat_key u = Some g'
           ∧ users g' = delete (user_key u) (users g)
           ∧ users g' !! user_key u = None
           ∧ (∀ id, id ≠ user_key u → users g' !! id = users g !! id)
           ∧ S (size (users g')) = size (users g)
           ∧ chat_title g' = chat_title g
           ∧ created_at g' = created_at g
           ∧ pairing_history g' = pairing_history g)
  ∧ (∀ k, k ≠ chat_key u → (leave u data).1 !! k = data !! k).
Proof.
  intros Hp Hg Hu. rewrite (leave_registered u data g usr Hp Hg Hu).
  cbn [fst snd]. split_and!.
  - done.
  - eexists. rewrite lookup_insert_eq. split; [done|].
    cbn [set_users users chat_title created_at pairing_history]. split_and!.
    + done.
    + apply lookup_delete_eq.
    + intros id Hid. by rewrite lookup_delete_ne.
    + rewrite map_size_delete, Hu.
      assert (size (users g) ≠ 0); [|cbn; lia].
      intros Hz%map_size_empty_inv. by rewrite Hz, lookup_empty in Hu.
    + done.
    + done.
    + done.
  - intros k Hk. by rewrite lookup_insert_ne.
Qed.

Lemma leave_removes_witness :
  effective_chat_type bob_joins ≠ Private
  ∧ one_group !! chat_key bob_joins = Some fellowship
  ∧ users fellowship !! user_key bob_joins = Some bob
  ∧ (leave bob_joins one_group).2 = Removed (display_name bob_joins)
  ∧ (∃ g', (leave bob_joins one_group).1 !! chat_key bob_joins = Some g'
           ∧ users g' = delete (user_key bob_joins) (users fellowship)
           ∧ users g' !! user_key bob_joins = None
           ∧ (∀ id, id ≠ user_key bob_joins
                    → users g' !! id = users fellowship !! id)
           ∧ S (size (users g')) = size (users fellowship)
           ∧ chat_title g' = chat_title fellowship
           ∧ created_at g' = created_at fellowship
           ∧ pairing_history g' = pairing_history fellowship)
  ∧ (∀ k, k ≠ chat_key bob_joins
          → (leave bob_joins one_group).1 !! k = one_group !! k).
Proof.
  assert (effective_chat_type bob_joins ≠ Private) as H1 by (by vm_compute).
  assert (one_group !! chat_key bob_joins = Some fellowship) as H2
    by reflexivity.
  assert (users fellowship !! user_key bob_joins = Some bob) as H3
    by reflexivity.
  split_and!; [exact H1|exact H2|exact H3|..];
    apply (leave_removes bob_joins one_group fellowship bob H1 H2 H3).
Defined.

(** X5.  [leave] by someone who is not in the roster of the chat, because
    the chat has no group or because they are not registered in it, answers
    that they are not registered and leaves the whole table as it was; in
    particular it creates no group. *)
Theorem leave_not_registered u data :
  effective_chat_type u ≠ Private →
  roster data (chat_key u) !! user_key u = None →
  leave u data = (data, NotRegistered (display_name u)).
Proof.
  intros Hp Hu. unfold leave. rewrite decide_False by done.
  unfold roster in Hu. destruct (data !! chat_key u) as [g|]; [|done].
  cbn [from_option] in Hu. by rewrite Hu.
Qed.

Lemma leave_not_registered_witness :
  effective_chat_type erin_asks ≠ Private
  ∧ roster one_group (chat_key erin_asks) !! user_key erin_asks = None
  ∧ leave erin_asks one_group
    = (one_group, NotRegistered (display_name erin_asks)).
Proof.
  assert (effective_chat_type erin_asks ≠ Private) as H1 by (by vm_compute).
  assert (roster one_group (chat_key erin_asks) !! user_key erin_asks = None)
    as H2 by reflexivity.
  split_and!; [exact H1|exact H2|].
  exact (leave_not_registered erin_asks one_group H1 H2).
Defined.

(** X6.  Registering and then leaving undoes the registration: when someone
    who is not in the roster calls [pairme] and then [leave] in the same
    group chat, [leave] answers that they were removed and the roster of the
    chat is what it was before the two calls; the group itself exists
    afterwards, also when the first call created it. *)
Theorem pairme_then_leave u1 u2 t1 t2 data :
  effective_chat_type u1 ≠ Private →
  effective_chat_type u2 ≠ Private →
  effective_chat_id u2 = effective_chat_id u1 →
  effective_user_id u2 = effective_user_id u1 →
  roster data (chat_key u1) !! user_key u1 = None →
  (leave u2 (pairme u1 t1 t2 data).1).2 = Removed (display_name u2)
  ∧ roster (leave u2 (pairme u1 t1 t2 data).1).1 (chat_key u1)
    = roster data (chat_key u1)
  ∧ is_Some ((leave u2 (pairme u1 t1 t2 data).1).1 !! chat_key u1)
  ∧ (∀ k, k ≠ chat_key u1 →
        (leave u2 (pairme u1 t1 t2 data).1).1 !! k = data !! k).
Proof.
  intros Hp1 Hp2 Hc Hu Hnew.
  assert (chat_key u2 = chat_key u1) as Hck by (unfold chat_key; by rewrite Hc).
  assert (user_key u2 = user_key u1) as Huk by (unfold user_key; by rewrite Hu).
  destruct (pairme_unregistered u1 t1 t2 data Hp1 Hnew) as (g1 & Hpm & Hus1).
  rewrite Hpm. cbn [fst].
  assert (<[chat_key u1 := g1]> data !! chat_key u2 = Some g1) as Hg1
    by (by rewrite Hck, lookup_insert_eq).
  assert (users g1 !! user_key u2
          = Some (mkUser (display_name u1) t2 None None)) as Husr
    by (by rewrite Hus1, Huk, lookup_insert_eq).
  rewrite (leave_registered u2 _ g1 _ Hp2 Hg1 Husr). cbn [fst snd].
  rewrite Hck, Huk, insert_insert_eq. split_and!.
  - done.
  - unfold roster at 1. rewrite lookup_insert_eq. cbn [from_option set_users users].
    rewrite Hus1. by apply delete_insert_id.
  - by rewrite lookup_insert_eq.
  - intros k Hk. by rewrite lookup_insert_ne.
Qed.

Lemma pairme_then_leave_witness :
  effective_chat_type erin_asks ≠ Private
  ∧ effective_chat_type erin_asks ≠ Private
  ∧ effective_chat_id erin_asks = effective_chat_id erin_asks
  ∧ effective_user_id erin_asks = effective_user_id erin_asks
  ∧ roster one_group (chat_key erin_asks) !! user_key erin_asks = None
  ∧ (leave erin_asks (pairme erin_asks "t8" "t9" one_group).1).2
    = Removed (display_name erin_asks)
  ∧ roster (leave erin_asks (pairme erin_asks "t8" "t9" one_group).1).1
      (chat_key erin_asks)
    = roster one_group (chat_key erin_asks)
  ∧ is_Some ((leave erin_asks (pairme erin_asks "t8" "t9" one_group).1).1
               !! chat_key erin_asks)
  ∧ (∀ k, k ≠ chat_key erin_asks →
        (leave erin_asks (pairme erin_asks "t8" "t9" one_group).1).1 !! k
        = one_group !! k).
Proof.
  assert (effective_chat_type erin_asks ≠ Private) as H1 by (by vm_compute).
  assert (roster one_group (chat_key erin_asks) !! user_key erin_asks = None)
    as H2 by reflexivity.
  split_and!; [exact H1|exact H1|reflexivity|reflexivity|exact H2|..];
    apply (pairme_then_leave erin_asks erin_asks "t8" "t9" one_group
             H1 H1 eq_refl eq_refl H2).
Defined.

(** * Further properties of the weekly job *)

Lemma pair_group_frame env k g rng :
  chat_title (pair_group env k g rng).1.1 = chat_title g
  ∧ created_at (pair_group env k g rng).1.1 = created_at g
  ∧ (users (pair_group env k g rng).1.1 = users g
     ∨ users (pair_group env k g rng).1.1 = ∅).
Proof.
  unfold pair_group. repeat case_decide; [by auto..|].
  destruct (generate_pairs (users g) rng) as [prs rng'].
  destruct (send_message env k _); cbn; auto.
Qed.

Lemma pair_group_addressed env k g rng :
  addressed (pair_group env k g rng).2
  = if decide (users g = ∅) then [] else [k].
Proof.
  unfold pair_group. case_decide; [done|]. case_decide; [done|].
  destruct (generate_pairs (users g) rng) as [prs rng'].
  by destruct (send_message env k _).
Qed.

Lemma job_fold_addressed env kvs (st : JobState) :
  addressed (foldl (job_step env) st kvs).2
  = addressed st.2
    ++ (filter (λ kv : string * Group, users kv.2 ≠ ∅) kvs).*1.
Proof.
  revert st. induction kvs as [|[k g] kvs IH]; intros st.
  { by rewrite app_nil_r. }
  cbn [foldl]. rewrite IH. destruct st as [[data rng] out].
  unfold job_step. cbn [fst snd].
  pose proof (pair_group_addressed env k g rng) as Hadd.
  destruct (pair_group env k g rng) as [[g' rng'] sent]. cbn [fst snd] in *.
  unfold addressed in *. rewrite fmap_app, Hadd, <- app_assoc. f_equal.
  case_decide as He.
  - by rewrite filter_cons_False by (cbn; by intros ?).
  - by rewrite filter_cons_True by done.
Qed.

(** X7.  The weekly job neither adds nor removes a group, and in every group
    it leaves the title and the creation time alone; the roster of a group
    is afterwards what it was or empty, so the job registers nobody. *)
Theorem weekly_job_frame env data rng :
  dom (send_weekly_pairings env data rng).1.1 = dom data
  ∧ ∀ k g, data !! k = Some g →
      ∃ g', (send_weekly_pairings env data rng).1.1 !! k = Some g'
            ∧ chat_title g' = chat_title g
            ∧ created_at g' = created_at g
            ∧ (users g' = users g ∨ users g' = ∅).
Proof.
  split.
  - apply set_eq. intros k. rewrite !elem_of_dom.
    destruct (data !! k) as [g|] eqn:Hk.
    + destruct (weekly_at env data rng k g Hk) as (rng_k & -> & _).
      split; eauto.
    + by rewrite weekly_absent.
  - intros k g Hk.
    destruct (weekly_at env data rng k g Hk) as (rng_k & -> & _).
    eexists. split; [done|]. apply pair_group_frame.
Qed.

(** X8.  A group whose roster is empty is skipped by the weekly job: the
    group is unchanged, no record is added to its history and nothing is
    sent to its chat. *)
Theorem weekly_job_skips_empty env data rng k g :
  data !! k = Some g →
  users g = ∅ →
  (send_weekly_pairings env data rng).1.1 !! k = Some g
  ∧ k ∉ addressed (send_weekly_pairings env data rng).2.
Proof.
  intros Hk He. split.
  - destruct (weekly_at env data rng k g Hk) as (rng_k & -> & _).
    by rewrite pair_group_empty.
  - unfold addressed. intros (s & -> & Hs)%list_elem_of_fmap.
    apply weekly_outbox in Hs as (g0 & rng0 & Hk0 & Hin). simplify_eq.
    rewrite pair_group_empty in Hin by done. by apply elem_of_nil in Hin.
Qed.

Lemma weekly_job_skips_empty_witness :
  two_groups !! "-200" = Some deserted
  ∧ users deserted = ∅
  ∧ (send_weekly_pairings failing two_groups [3]).1.1 !! "-200" = Some deserted
  ∧ "-200" ∉ addressed (send_weekly_pairings failing two_groups [3]).2.
Proof.
  assert (two_groups !! "-200" = Some deserted) as H1 by reflexivity.
  assert (users deserted = ∅) as H2 by reflexivity.
  split_and!; [exact H1|exact H2|..];
    apply (weekly_job_skips_empty failing two_groups [3] "-200" deserted H1 H2).
Defined.

(** X9.  One run of the weekly job sends at most one message to a chat: it
    writes once to every chat whose roster is not empty and to no other,
    whether the sends return or raise. *)
Theorem weekly_job_one_message env data rng :
  NoDup (addressed (send_weekly_pairings env data rng).2)
  ∧ ∀ k, k ∈ addressed (send_weekly_pairings env data rng).2
         ↔ roster data k ≠ ∅.
Proof.
  unfold send_weekly_pairings. case_decide as He.
  { cbn [snd]. split; [constructor|]. intros k. split.
    - by intros ?%elem_of_nil.
    - intros Hr. destruct Hr. unfold roster. by rewrite He, lookup_empty. }
  rewrite job_fold_addressed. cbn [snd addressed fmap list_fmap app]. split.
  - eapply sublist_NoDup; [apply (NoDup_fst_map_to_list data)|].
    apply fmap_sublist, sublist_filter.
  - intros k. rewrite list_elem_of_fmap. split.
    + intros ([k' g] & -> & [Hne Hin%elem_of_map_to_list]%list_elem_of_filter).
      cbn [fst snd] in *. by rewrite (roster_lookup _ _ _ Hin).
    + intros Hr. unfold roster in Hr.
      destruct (data !! k) as [g|] eqn:Hk; [|done]. cbn [from_option] in Hr.
      exists (k, g). split; [done|]. apply list_elem_of_filter.
      split; [done|]. by apply elem_of_map_to_list.
Qed.

(** X10.  After a run of the weekly job in which every send returned, every
    roster holds at most one participant, and a second run changes no group,
    whatever its random draws and its transport do: no record is added and
    nobody is removed. *)
Theorem weekly_job_twice env1 env2 data rng1 rng2 :
  (∀ k m, send_message env1 k m = true) →
  (∀ k g, (send_weekly_pairings env1 data rng1).1.1 !! k = Some g
          → size (users g) ≤ 1)
  ∧ (send_weekly_pairings env2 (send_weekly_pairings env1 data rng1).1.1
       rng2).1.1
    = (send_weekly_pairings env1 data rng1).1.1.
Proof.
  intros Hsend.
  assert (∀ k g, (send_weekly_pairings env1 data rng1).1.1 !! k = Some g
                 → size (users g) ≤ 1) as Hsmall.
  { intros k g1 Hg1. destruct (data !! k) as [g|] eqn:Hk.
    - destruct (weekly_at env1 data rng1 k g Hk) as (rng_k & Hat & _).
      rewrite Hat in Hg1. injection Hg1 as <-.
      destruct (decide (2 ≤ size (users g))) as [Hs|Hs].
      + destruct (pair_group_paired env1 k g rng_k Hs) as [-> _].
        rewrite Hsend. cbn. by rewrite map_size_empty; lia.
      + destruct (pair_group_frame env1 k g rng_k) as (_ & _ & [-> | ->]).
        * lia.
        * rewrite map_size_empty. lia.
    - by rewrite weekly_absent in Hg1. }
  split; [exact Hsmall|].
  apply map_eq. intros k.
  destruct ((send_weekly_pairings env1 data rng1).1.1 !! k) as [g1|] eqn:Hg1.
  - destruct (weekly_at env2 _ rng2 k g1 Hg1) as (rng_k & -> & _).
    f_equal. specialize (Hsmall k g1 Hg1).
    destruct (decide (size (users g1) = 1)) as [H1|H1].
    + by rewrite pair_group_single.
    + rewrite pair_group_empty; [done|].
      apply map_size_empty_inv. lia.
  - by apply weekly_absent.
Qed.

Lemma weekly_job_twice_witness :
  (∀ k m, send_message delivering k m = true)
  ∧ (∀ k g, (send_weekly_pairings delivering two_groups [1]).1.1 !! k = Some g
            → size (users g) ≤ 1)
  ∧ (send_weekly_pairings failing
       (send_weekly_pairings delivering two_groups [1]).1.1 [4]).1.1
    = (send_weekly_pairings delivering two_groups [1]).1.1.
Proof.
  assert (∀ k m, send_message delivering k m = true) as H1 by reflexivity.
  split; [exact H1|].
  exact (weekly_job_twice delivering failing two_groups [1] [4] H1).
Defined.

(** * Further properties of the stored rounds *)

Lemma generate_pairs_ids_perm (us : gmap string User) rng :
  (generate_pairs us rng).1 ≫= outcome_ids ≡ₚ (map_to_list us).*1.
Proof. by rewrite generate_pairs_chunk, chunk2_ids, shuffle_perm. Qed.

Lemma round_record_sound d (us : gmap string User) rng :
  round_sound (round_record d (generate_pairs us rng).1).
Proof.
  split.
  - rewrite round_record_ids, generate_pairs_ids_perm.
    apply NoDup_fst_map_to_list.
  - unfold round_record. cbn [pairs]. apply Forall_fmap, Forall_forall.
    intros [a [b|]] _; cbn; split; intros [? ?]; done || eauto.
Qed.

Lemma elem_of_append_record h r r' :
  r' ∈ append_record h r → r' ∈ h ∨ r' = r.
Proof.
  rewrite append_record_last10. intros [Hin|Hin]%elem_of_app.
  - left. by eapply subseteq_drop.
  - right. by apply list_elem_of_singleton in Hin.
Qed.

Lemma pair_group_history_elem env k g rng r :
  r ∈ history (pair_group env k g rng).1.1 →
  r ∈ history g
  ∨ r = round_record (now env k) (generate_pairs (users g) rng).1.
Proof.
  unfold pair_group. repeat case_decide; [by left..|].
  destruct (generate_pairs (users g) rng) as [prs rng'].
  destruct (send_message env k _); cbn; apply elem_of_append_record.
Qed.

Lemma apply_op_history_elem data op k g' r :
  apply_op data op !! k = Some g' →
  r ∈ history g' →
  (∃ g, data !! k = Some g ∧ r ∈ history g)
  ∨ ∃ d us rng, r = round_record d (generate_pairs us rng).1.
Proof.
  intros Hg' Hr. destruct (data !! k) as [g|] eqn:Hk.
  - destruct op as [u t1 t2|u|u|env rng]; cbn [apply_op] in Hg'.
    + destruct (pairme_at u t1 t2 data k g Hk) as (g1 & Hg1 & Hh).
      left. exists g. split; [done|]. unfold history in *.
      simplify_eq. by rewrite <- Hh.
    + destruct (leave_at u data k g Hk) as (g1 & Hg1 & Hh).
      left. exists g. split; [done|]. unfold history in *.
      simplify_eq. by rewrite <- Hh.
    + left. exists g. by simplify_eq.
    + destruct (weekly_at env data rng k g Hk) as (rng_k & Hat & _).
      rewrite Hat in Hg'. injection Hg' as <-.
      apply pair_group_history_elem in Hr as [Hr| ->]; [left|right]; eauto.
  - unfold history in Hr.
    rewrite (apply_op_fresh data op k g' Hk Hg') in Hr.
    by apply elem_of_nil in Hr.
Qed.

(** X13.  From a table whose stored rounds are sound (the empty table is
    one), every run of the bot reaches a table whose stored rounds are
    sound: in each record of each history no participant occurs twice, and
    each pair has its second id and second name both present or both
    absent. *)
Theorem rounds_stay_sound ops data :
  rounds_sound data → rounds_sound (run ops data).
Proof.
  intros Hs. induction ops as [|op ops IH] using rev_ind; [done|].
  rewrite run_snoc. intros k g' Hg'. apply Forall_forall. intros r Hr.
  destruct (apply_op_history_elem _ _ _ _ _ Hg' Hr)
    as [(g & Hg & Hin)|(d & us & rng & ->)].
  - specialize (IH k g Hg). by eapply Forall_forall in IH.
  - apply round_record_sound.
Qed.

Lemma rounds_stay_sound_witness :
  rounds_sound ∅ ∧ rounds_sound (run two_weeks ∅).
Proof.
  assert (rounds_sound ∅) as H1.
  { intros k g Hk. by rewrite lookup_empty in Hk. }
  split; [exact H1|]. exact (rounds_stay_sound two_weeks ∅ H1).
Defined.

(** ** Display names *)

Lemma apply_op_users data op k g' id usr :
  apply_op data op !! k = Some g' →
  users g' !! id = Some usr →
  (∃ g, data !! k = Some g ∧ users g !! id = Some usr)
  ∨ ∃ u t1 t2, op = OpPairme u t1 t2
               ∧ usr = mkUser (display_name u) t2 None None.
Proof.
  intros Hg' Hu. destruct op as [u t1 t2|u|u|env rng]; cbn [apply_op] in Hg'.
  - unfold pairme in Hg'. case_decide; [left; by eauto|].
    destruct (decide (k = chat_key u)) as [->|Hne].
    + destruct (users (set_chat_title (title_of u) _) !! user_key u)
        as [usr0|] eqn:Hreg; cbn [fst] in Hg';
        rewrite lookup_insert_eq in Hg'; injection Hg' as <-;
        cbn [set_chat_title set_users users] in *.
      * destruct (data !! chat_key u) as [g|] eqn:Hk; [left; by eauto|].
        cbn in Hu. by rewrite lookup_empty in Hu.
      * destruct (decide (id = user_key u)) as [->|Hid].
        -- rewrite lookup_insert_eq in Hu. right. exists u, t1, t2.
           by simplify_eq.
        -- rewrite lookup_insert_ne in Hu by done.
           destruct (data !! chat_key u) as [g|] eqn:Hk; [left; by eauto|].
           cbn in Hu. by rewrite lookup_empty in Hu.
    + destruct (users (set_chat_title (title_of u) _) !! user_key u);
        cbn [fst] in Hg'; rewrite lookup_insert_ne in Hg' by done;
        left; eauto.
  - unfold leave in Hg'. case_decide; [left; by eauto|].
    destruct (data !! chat_key u) as [g|] eqn:Hk; [|left; by eauto].
    destruct (users g !! user_key u) eqn:Hreg; [|left; by eauto].
    cbn [fst] in Hg'. destruct (decide (k = chat_key u)) as [->|Hne].
    + rewrite lookup_insert_eq in Hg'. injection Hg' as <-.
      cbn [set_users users] in Hu.
      apply lookup_delete_Some in Hu as [_ Hu]. left. eauto.
    + rewrite lookup_insert_ne in Hg' by done. left. eauto.
  - left. eauto.
  - destruct (data !! k) as [g|] eqn:Hk.
    + destruct (weekly_at env data rng k g Hk) as (rng_k & Hat & _).
      rewrite Hat in Hg'. injection Hg' as <-.
      destruct (pair_group_frame env k g rng_k) as (_ & _ & [Hus|Hus]);
        rewrite Hus in Hu; [left; by eauto|by rewrite lookup_empty in Hu].
    + by rewrite weekly_absent in Hg'.
Qed.

(** X12.  The name stored at registration is never empty (it is the
    username, else the first name, else "Unknown"), and no operation writes
    any other name: from a table in which every participant has a
    non-empty name (the empty table is one), every run of the bot reaches
    such a table. *)
Theorem usernames_never_empty ops data :
  named data →
  named (run ops data) ∧ ∀ u, display_name u ≠ "".
Proof.
  intros Hn. split; [|apply display_name_nonempty].
  induction ops as [|op ops IH] using rev_ind; [done|].
  rewrite run_snoc. intros k g' id usr Hg' Hu.
  destruct (apply_op_users _ _ _ _ _ _ Hg' Hu)
    as [(g & Hg & Hin)|(u & t1 & t2 & _ & ->)].
  - by apply (IH k g id usr).
  - apply display_name_nonempty.
Qed.

Lemma usernames_never_empty_witness :
  named ∅ ∧ named (run two_weeks ∅) ∧ ∀ u, display_name u ≠ "".
Proof.
  assert (named ∅) as H1.
  { intros k g id usr Hk. by rewrite lookup_empty in Hk. }
  split; [exact H1|]. exact (usernames_never_empty two_weeks ∅ H1).
Defined.

(** X15.  No operation writes the fields [last_partner] and
    [last_pairing_date] of a participant: they are empty at registration,
    and from a table in which they are empty everywhere (the empty table is
    one) every run of the bot, weekly job included, reaches a table in
    which they are empty everywhere. *)
Theorem legacy_fields_never_written ops data :
  legacy_blank data → legacy_blank (run ops data).
Proof.
  intros Hb. induction ops as [|op ops IH] using rev_ind; [done|].
  rewrite run_snoc. intros k g' id usr Hg' Hu.
  destruct (apply_op_users _ _ _ _ _ _ Hg' Hu)
    as [(g & Hg & Hin)|(u & t1 & t2 & _ & ->)].
  - by apply (IH k g id usr).
  - done.
Qed.

Lemma legacy_fields_never_written_witness :
  legacy_blank ∅ ∧ legacy_blank (run two_weeks ∅).
Proof.
  assert (legacy_blank ∅) as H1.
  { intros k g id usr Hk. by rewrite lookup_empty in Hk. }
  split; [exact H1|]. exact (legacy_fields_never_written two_weeks ∅ H1).
Defined.

(** ** The search of [mypair] after a round *)

Lemma mentions_pair_ids id p : mentions id p = true → id ∈ pair_ids p.
Proof.
  unfold mentions, pair_ids. intros [H1|H2]%orb_true_iff.
  - apply bool_decide_eq_true in H1 as <-. by left.
  - apply bool_decide_eq_true in H2 as ->. right. by left.
Qed.

Lemma scan_pairs_unique id ps p :
  NoDup (ps ≫= pair_ids) → p ∈ ps → mentions id p = true →
  scan_pairs id ps = Some (partner_of id p).
Proof.
  intros Hnd Hp Hm. induction ps as [|q ps IH]; [by apply elem_of_nil in Hp|].
  rewrite bind_cons in Hnd. apply NoDup_app in Hnd as (_ & Hdisj & Hnd).
  cbn [scan_pairs]. apply elem_of_cons in Hp as [->|Hp]; [by rewrite Hm|].
  destruct (mentions id q) eqn:Hq; [|by apply IH].
  destruct (Hdisj id (mentions_pair_ids _ _ Hq)).
  apply list_elem_of_bind. exists p. split; [|done].
  by apply mentions_pair_ids.
Qed.

Lemma pair_ids_NoDup ps p :
  NoDup (ps ≫= pair_ids) → p ∈ ps → NoDup (pair_ids p).
Proof.
  intros Hnd Hp. induction ps as [|q ps IH]; [by apply elem_of_nil in Hp|].
  rewrite bind_cons in Hnd. apply NoDup_app in Hnd as (Hq & _ & Hnd).
  apply elem_of_cons in Hp as [->|Hp]; [done|by apply IH].
Qed.

Lemma last_pairing_newest id g h r partner :
  pairing_history g = Some (h ++ [r]) →
  scan_pairs id (pairs r) = Some partner →
  truthy partner = true →
  last_pairing id g = (partner, Some (date r)).
Proof.
  intros Hh Hscan Ht. unfold last_pairing. rewrite Hh, reverse_snoc.
  cbn [scan_history]. rewrite Hscan. cbn [fst]. by rewrite Ht.
Qed.

(** X11.  After the weekly job has paired a group of at least two
    participants with non-empty names, the two members of every matched
    pair of the new record are each other's last partner for [mypair], with
    the date of this round, whether the announcement was delivered or
    not. *)
Theorem matched_pair_see_each_other env data rng k g :
  data !! k = Some g →
  2 ≤ size (users g) →
  (∀ id usr, users g !! id = Some usr → username usr ≠ "") →
  ∃ g' r,
    (send_weekly_pairings env data rng).1.1 !! k = Some g'
    ∧ last (history g') = Some r
    ∧ ∀ p id2, p ∈ pairs r → user2_id p = Some id2 →
        last_pairing (user1_id p) g' = (user2_name p, Some (now env k))
        ∧ last_pairing id2 g' = (Some (user1_name p), Some (now env k))
        ∧ truthy (user2_name p) = true
        ∧ user1_name p ≠ "".
Proof.
  intros Hk Hs Hnames.
  destruct (weekly_paired env data rng k g Hk Hs)
    as (prs & [rng_k ->] & Hg' & _).
  set (r := round_record (now env k) (generate_pairs (users g) rng_k).1) in *.
  eexists _, r. split; [exact Hg'|].
  match goal with |- context [history ?g1] =>
    assert (pairing_history g1
            = Some (drop (length (history g) - 9) (history g) ++ [r])) as Hh
      by (destruct (send_message env k _); cbn;
          by rewrite append_record_last10)
  end.
  split; [unfold history at 1; rewrite Hh; cbn; apply last_snoc|].
  intros p id2 Hp Hid2.
  destruct (round_record_sound (now env k) (users g) rng_k) as [Hnd _].
  fold r in Hnd. unfold record_ids in Hnd.
  pose proof (round_record_from_roster (now env k) (users g) rng_k) as Hfrom.
  fold r in Hfrom. apply (proj1 (Forall_forall _ _)) with (x := p) in Hfrom;
    [|done].
  destruct Hfrom as [(u1 & Hu1 & Hn1) [[Hno _]|(id2' & u2 & Hi2 & Hu2 & Hn2)]];
    [congruence|].
  assert (user1_name p ≠ "") as Hne1 by (rewrite Hn1; by eapply Hnames).
  assert (truthy (user2_name p) = true) as Ht2.
  { rewrite Hn2. cbn. apply bool_decide_eq_true. by eapply Hnames. }
  assert (user1_id p ≠ id2) as Hdiff.
  { pose proof (pair_ids_NoDup _ _ Hnd Hp) as Hpp. unfold pair_ids in Hpp.
    rewrite Hid2 in Hpp. apply NoDup_cons in Hpp as [Hnotin _].
    intros Heq. apply Hnotin. rewrite Heq. by left. }
  change (now env k) with (date r).
  split_and!; [| |done|done].
  - eapply last_pairing_newest; [exact Hh| |exact Ht2].
    rewrite (scan_pairs_unique _ _ p Hnd Hp).
    + unfold partner_of. by rewrite decide_True.
    + unfold mentions. by rewrite bool_decide_eq_true_2.
  - eapply last_pairing_newest; [exact Hh| |].
    + rewrite (scan_pairs_unique _ _ p Hnd Hp).
      * unfold partner_of. by rewrite decide_False.
      * unfold mentions. rewrite (bool_decide_eq_true_2 (user2_id p = _)) by done.
        apply orb_true_r.
    + cbn. by apply bool_decide_eq_true.
Qed.

Lemma matched_pair_see_each_other_witness :
  one_group !! "-100" = Some fellowship
  ∧ 2 ≤ size (users fellowship)
  ∧ (∀ id usr, users fellowship !! id = Some usr → username usr ≠ "")
  ∧ ∃ g' r,
      (send_weekly_pairings failing one_group [1]).1.1 !! "-100" = Some g'
      ∧ last (history g') = Some r
      ∧ ∀ p id2, p ∈ pairs r → user2_id p = Some id2 →
          last_pairing (user1_id p) g'
          = (user2_name p, Some (now failing "-100"))
          ∧ last_pairing id2 g'
            = (Some (user1_name p), Some (now failing "-100"))
          ∧ truthy (user2_name p) = true
          ∧ user1_name p ≠ "".
Proof.
  assert (one_group !! "-100" = Some fellowship) as H1 by reflexivity.
  assert (2 ≤ size (users fellowship)) as H2 by (vm_compute; lia).
  assert (∀ id usr, users fellowship !! id = Some usr → username usr ≠ "")
    as H3.
  { intros id usr Hu.
    assert (usr ∈ (map_to_list (users fellowship)).*2) as Hin.
    { apply list_elem_of_fmap. exists (id, usr). split; [done|].
      by apply elem_of_map_to_list. }
    vm_compute in Hin.
    repeat (apply elem_of_cons in Hin as [->|Hin]; [by vm_compute|]).
    by apply elem_of_nil in Hin. }
  split_and!; [exact H1|exact H2|exact H3|].
  exact (matched_pair_see_each_other failing one_group [1] "-100" fellowship
           H1 H2 H3).
Defined.

(** ** The announcement *)

Lemma message_line_index i p : line_index (message_line i p) = i.
Proof. by destruct p as [a [b|]]. Qed.

Lemma imap_line_index n (prs : list (Item * option Item)) :
  line_index <$> imap (λ i, message_line (n + i)) prs = seq n (length prs).
Proof.
  revert n. induction prs as [|p prs IH]; intros n; [done|].
  rewrite imap_cons. cbn [fmap list_fmap length seq].
  rewrite message_line_index, Nat.add_0_r. f_equal.
  rewrite <- IH. f_equal. apply imap_ext. intros i x _. cbn. f_equal. lia.
Qed.

Lemma imap_line_names (f : nat → nat) (l : list Item) :
  imap (λ i, message_line (f i)) (chunk2 l) ≫= line_names
  = (λ it, username it.2) <$> l.
Proof.
  revert f. induction l as [|a|a b l IH] using list_ind2; intros f; [done..|].
  cbn [chunk2]. rewrite imap_cons, bind_cons.
  cbn [message_line line_names fmap list_fmap app]. do 2 f_equal.
  apply (IH (f ∘ S)).
Qed.

(** X14.  The announcement the weekly job writes to a group of at least two
    participants is headed by the group's title ("Unknown Group" when the
    title is missing), has one line for every two participants, rounded
    up, numbered from 1 in order, and the names on its lines are the
    display names of the roster, each participant once. *)
Theorem announcement_lists_everyone env data rng k g :
  data !! k = Some g →
  2 ≤ size (users g) →
  ∃ lines,
    (k, WeeklyPairings (default "Unknown Group" (chat_title g)) lines,
     send_message env k
       (WeeklyPairings (default "Unknown Group" (chat_title g)) lines))
    ∈ (send_weekly_pairings env data rng).2
    ∧ line_index <$> lines = seq 1 (length lines)
    ∧ length lines = Nat.div2 (S (size (users g)))
    ∧ lines ≫= line_names
      ≡ₚ (λ it, username it.2) <$> map_to_list (users g).
Proof.
  intros Hk Hs.
  destruct (weekly_paired env data rng k g Hk Hs)
    as (prs & [rng_k ->] & _ & Hout).
  unfold announcement in Hout. eexists. split; [exact Hout|].
  rewrite length_imap. split_and!.
  - apply (imap_line_index 1).
  - by rewrite generate_pairs_chunk, chunk2_length, shuffle_perm,
      length_map_to_list.
  - by rewrite generate_pairs_chunk, imap_line_names, shuffle_perm.
Qed.

Lemma announcement_lists_everyone_witness :
  one_group !! "-100" = Some fellowship
  ∧ 2 ≤ size (users fellowship)
  ∧ ∃ lines,
      ("-100", WeeklyPairings (default "Unknown Group" (chat_title fellowship))
                 lines,
       send_message delivering "-100"
         (WeeklyPairings (default "Unknown Group" (chat_title fellowship))
            lines))
      ∈ (send_weekly_pairings delivering one_group [0; 1]).2
      ∧ line_index <$> lines = seq 1 (length lines)
      ∧ length lines = Nat.div2 (S (size (users fellowship)))
      ∧ lines ≫= line_names
        ≡ₚ (λ it, username it.2) <$> map_to_list (users fellowship).
Proof.
  assert (one_group !! "-100" = Some fellowship) as H1 by reflexivity.
  assert (2 ≤ size (users fellowship)) as H2 by (vm_compute; lia).
  split_and!; [exact H1|exact H2|].
  exact (announcement_lists_everyone delivering one_group [0; 1] "-100"
           fellowship H1 H2).
Defined.

(** ** Registration does not touch the last partner *)

Lemma last_pairing_history id g g' :
  pairing_history g' = pairing_history g →
  last_pairing id g' = last_pairing id g.
Proof. intros Hh. unfold last_pairing. by rewrite Hh. Qed.

(** X16.  What [mypair] finds as last partner and date of anyone in a group
    depends on the group's history alone: it is the same before and after a
    [pairme] or a [leave], by whomever, in whatever chat, so a participant
    who left or registered again still sees their last partner. *)
Theorem last_partner_survives_registration u t1 t2 data k g id :
  data !! k = Some g →
  (∃ g', (pairme u t1 t2 data).1 !! k = Some g'
         ∧ last_pairing id g' = last_pairing id g
         ∧ shown_pairing (last_pairing id g')
           = shown_pairing (last_pairing id g))
  ∧ (∃ g', (leave u data).1 !! k = Some g'
           ∧ last_pairing id g' = last_pairing id g
           ∧ shown_pairing (last_pairing id g')
             = shown_pairing (last_pairing id g)).
Proof.
  intros Hk. split.
  - destruct (pairme_at u t1 t2 data k g Hk) as (g' & Hg' & Hh).
    exists g'. rewrite (last_pairing_history id g g' Hh). by split_and!.
  - destruct (leave_at u data k g Hk) as (g' & Hg' & Hh).
    exists g'. rewrite (last_pairing_history id g g' Hh). by split_and!.
Qed.

Lemma last_partner_survives_registration_witness :
  (<["-100" := two_rounds]> ∅ : gmap string Group) !! "-100" = Some two_rounds
  ∧ (∃ g', (pairme alice_asks "t0" "t1" (<["-100" := two_rounds]> ∅)).1
             !! "-100" = Some g'
           ∧ last_pairing "11" g' = last_pairing "11" two_rounds
           ∧ shown_pairing (last_pairing "11" g')
             = shown_pairing (last_pairing "11" two_rounds))
  ∧ (∃ g', (leave alice_asks (<["-100" := two_rounds]> ∅)).1 !! "-100"
           = Some g'
           ∧ last_pairing "11" g' = last_pairing "11" two_rounds
           ∧ shown_pairing (last_pairing "11" g')
             = shown_pairing (last_pairing "11" two_rounds)).
Proof.
  assert ((<["-100" := two_rounds]> ∅ : gmap string Group) !! "-100"
          = Some two_rounds) as H1 by reflexivity.
  split; [exact H1|].
  exact (last_partner_survives_registration alice_asks "t0" "t1"
           (<["-100" := two_rounds]> ∅) "-100" two_rounds "11" H1).
Defined.
